(** * 101ply: the synchronisation and playback-control engine of [main.go]

    A shallow embedding of the parts of [main.go] that keep the player in
    step with the station: [FetchChannelInfo] (with the [Block.Do]
    try/catch/finally helper it runs in), the URL fix-ups and the next-fetch
    period computed there, [Play], [Pause], [Resume], [Stop], the hotkey
    callback of [attach], [Sleep], and the body of the playing loop of
    [main].

    Conventions.
    - A Go [uint64] is a [Z] in the range [0 <= x < 2^64]; every arithmetic
      operation of the source is written with its wrap-around ([U64.sub],
      [U64.add]).
    - A Go [string] is a sequence of bytes: Rocq's [string] of 8-bit
      [ascii].
    - The [go101] object is threaded explicitly.  Code that may panic runs in
      the monad [M], in which the state reached at the moment of the panic is
      kept (Go does not roll assignments back when a panic unwinds).
    - Calls into the mp3 backend and the now-playing line printed by [main]
      are recorded as a list of [Event]s.
    - [go f()] is modelled as running [f] to completion at the place where it
      is spawned; interleavings of goroutines are not modelled.
    - [Debug] prints only under [-verbose] and changes nothing; it is left
      out. *)

From Stdlib Require Import ZArith Lia List Bool Arith String Ascii.
Import ListNotations.

Local Open Scope string_scope.
Local Open Scope Z_scope.

(* ===================================================================== *)
(** ** Unsigned 64-bit arithmetic *)
(* ===================================================================== *)

Module U64.

Definition modulus : Z := 2 ^ 64.

Definition wrap (x : Z) : Z := x mod modulus.

Definition add (x y : Z) : Z := wrap (x + y).

Definition sub (x y : Z) : Z := wrap (x - y).

Definition inRange (x : Z) : Prop := 0 <= x < modulus.

End U64.

(* ===================================================================== *)
(** ** Constants and types of [main.go] *)
(* ===================================================================== *)

Definition STATUS_PLAY : Z := 0x100.
Definition STATUS_PAUSE : Z := 0x200.
Definition STATUS_STOP : Z := 0x300.

(** The JSON types.  Projections carry the name of their struct where the
    source reuses a field name in several structs. *)

Record TrackInfo__Result__About__Audio := {
  Audio_TrackUid : Z;
  Audio_Filename : string
}.

Record TrackInfo__Result__About__Album := {
  Album_Title : string;
  Album_ReleaseDate : string
}.

Record TrackInfo__Result__About := {
  About_Title : string;
  About_Artist : string;
  About_Audio : list TrackInfo__Result__About__Audio;
  About_Album : TrackInfo__Result__About__Album
}.

Record TrackInfo__Result__Stat := {
  StartSong : Z;
  FinishSong : Z;
  ServerTime : Z
}.

Record TrackInfo__Result := {
  About : TrackInfo__Result__About;
  Stat : TrackInfo__Result__Stat
}.

Record TrackInfo := {
  TrackInfo_Status : Z;
  Result : TrackInfo__Result;
  ErrorCode : Z
}.

(** The general types.  [go101.ChannelGroups] and [go101.ChannelGroupsUrl]
    are only touched by the directory set-up code and are not carried. *)

Record go101TrackInfo := {
  Track_TrackUid : Z;
  Artist : string;
  Title : string;
  Album : string;
  AlbumDate : string;
  PlayURL : string
}.

Record go101 := {
  CurrentGroup : Z;
  CurrentChannel : Z;
  CurrentTrack : go101TrackInfo;
  TrackUid : Z;
  Status : Z;
  NextFetch : Z
}.

(** [var go101o go101]: every field has Go's zero value. *)
Definition zeroTrack : go101TrackInfo :=
  {| Track_TrackUid := 0; Artist := ""; Title := ""; Album := "";
     AlbumDate := ""; PlayURL := "" |}.

Definition go101o : go101 :=
  {| CurrentGroup := 0; CurrentChannel := 0; CurrentTrack := zeroTrack;
     TrackUid := 0; Status := 0; NextFetch := 0 |}.

(** Field assignments. *)

Definition set_CurrentTrack (t : go101TrackInfo) (g : go101) : go101 :=
  {| CurrentGroup := CurrentGroup g; CurrentChannel := CurrentChannel g;
     CurrentTrack := t; TrackUid := TrackUid g; Status := Status g;
     NextFetch := NextFetch g |}.

Definition set_TrackUid (u : Z) (g : go101) : go101 :=
  {| CurrentGroup := CurrentGroup g; CurrentChannel := CurrentChannel g;
     CurrentTrack := CurrentTrack g; TrackUid := u; Status := Status g;
     NextFetch := NextFetch g |}.

Definition set_Status (s : Z) (g : go101) : go101 :=
  {| CurrentGroup := CurrentGroup g; CurrentChannel := CurrentChannel g;
     CurrentTrack := CurrentTrack g; TrackUid := TrackUid g; Status := s;
     NextFetch := NextFetch g |}.

Definition set_NextFetch (n : Z) (g : go101) : go101 :=
  {| CurrentGroup := CurrentGroup g; CurrentChannel := CurrentChannel g;
     CurrentTrack := CurrentTrack g; TrackUid := TrackUid g;
     Status := Status g; NextFetch := n |}.

Definition set_Track_TrackUid (u : Z) (t : go101TrackInfo) : go101TrackInfo :=
  {| Track_TrackUid := u; Artist := Artist t; Title := Title t;
     Album := Album t; AlbumDate := AlbumDate t; PlayURL := PlayURL t |}.

Definition set_Title (s : string) (t : go101TrackInfo) : go101TrackInfo :=
  {| Track_TrackUid := Track_TrackUid t; Artist := Artist t; Title := s;
     Album := Album t; AlbumDate := AlbumDate t; PlayURL := PlayURL t |}.

Definition set_Artist (s : string) (t : go101TrackInfo) : go101TrackInfo :=
  {| Track_TrackUid := Track_TrackUid t; Artist := s; Title := Title t;
     Album := Album t; AlbumDate := AlbumDate t; PlayURL := PlayURL t |}.

Definition set_Album (s : string) (t : go101TrackInfo) : go101TrackInfo :=
  {| Track_TrackUid := Track_TrackUid t; Artist := Artist t; Title := Title t;
     Album := s; AlbumDate := AlbumDate t; PlayURL := PlayURL t |}.

Definition set_AlbumDate (s : string) (t : go101TrackInfo) : go101TrackInfo :=
  {| Track_TrackUid := Track_TrackUid t; Artist := Artist t; Title := Title t;
     Album := Album t; AlbumDate := s; PlayURL := PlayURL t |}.

Definition set_PlayURL (s : string) (t : go101TrackInfo) : go101TrackInfo :=
  {| Track_TrackUid := Track_TrackUid t; Artist := Artist t; Title := Title t;
     Album := Album t; AlbumDate := AlbumDate t; PlayURL := s |}.

(* ===================================================================== *)
(** ** The string functions the code calls *)
(* ===================================================================== *)

Module strings.

(** [strings.HasPrefix(s, prefix)]. *)
Fixpoint HasPrefix (s prefix : string) {struct prefix} : bool :=
  match prefix with
  | EmptyString => true
  | String c prefix' =>
      match s with
      | EmptyString => false
      | String d s' => Ascii.eqb c d && HasPrefix s' prefix'
      end
  end.

(** [s[n:]], and the empty string when [n] is past the end. *)
Fixpoint drop (n : nat) (s : string) : string :=
  match n with
  | O => s
  | S n' => match s with
            | EmptyString => EmptyString
            | String _ s' => drop n' s'
            end
  end.

(** [strings.Index(s, substr)]: the offset of the first occurrence, [None]
    for Go's [-1]. *)
Fixpoint Index (s substr : string) : option nat :=
  if HasPrefix s substr then Some O
  else match s with
       | EmptyString => None
       | String _ s' => option_map S (Index s' substr)
       end.

(** [strings.Replace(s, old, new, 1)]: the first occurrence of [old] is
    replaced by [new]; [s] is returned as it is when [old] does not occur. *)
Fixpoint Replace1 (s old new : string) : string :=
  if HasPrefix s old then new ++ drop (String.length old) s
  else match s with
       | EmptyString => EmptyString
       | String c s' => String c (Replace1 s' old new)
       end.

(** The number of positions of [s] at which [substr] starts, overlapping
    occurrences included.  Not called by the code; it serves to state that a
    URL "contains the fragment n times" without choosing a scanning order. *)
Fixpoint occurrences (s substr : string) : nat :=
  ((if HasPrefix s substr then 1 else 0) +
   match s with
   | EmptyString => 0
   | String _ s' => occurrences s' substr
   end)%nat.

End strings.

(* ===================================================================== *)
(** ** The two regular expressions of [FetchChannelInfo] *)
(* ===================================================================== *)

Module regexp.

(** The line feed, the one character that [.] does not match in Go's
    [regexp] (RE2 syntax without the [s] flag). *)
Definition LF : ascii := Ascii.ascii_of_nat 10.

(** [`http\:(.)`] matched at the very start of [s]: the five bytes [http:]
    and then one character that is not a line feed.  [.] consumes a rune,
    and a rune starts at any byte that is there (an invalid byte reads as
    U+FFFD), so a match exists exactly when a byte other than line feed
    follows. *)
Definition schemeAt (s : string) : bool :=
  strings.HasPrefix s "http:" &&
  match strings.drop 5 s with
  | EmptyString => false
  | String c _ => negb (Ascii.eqb c LF)
  end.

(** [regexp.MustCompile(`http\:(.)`).FindStringSubmatch(s)], reduced to what
    the caller looks at: the offset of the leftmost match, [None] for [nil].
    The expression has no [^]: the search runs over every offset. *)
Fixpoint FindScheme (s : string) : option nat :=
  if schemeAt s then Some O
  else match s with
       | EmptyString => None
       | String _ s' => option_map S (FindScheme s')
       end.

(** The literal matched by [`(\/vardata\/modules\/musicdb\/files\/)`]. *)
Definition filesFragment : string := "/vardata/modules/musicdb/files/".

(** Successive non-overlapping matches of a literal [lit], scanning from the
    left: once a match is found at an offset the scan resumes after its last
    byte.  [skip] is the number of bytes of the previous match still to
    step over. *)
Fixpoint countMatches (skip : nat) (s lit : string) : nat :=
  match s with
  | EmptyString => O
  | String _ s' =>
      match skip with
      | S k => countMatches k s' lit
      | O => if strings.HasPrefix s lit
             then S (countMatches (String.length lit - 1) s' lit)
             else countMatches O s' lit
      end
  end.

(** [len(re.FindAllStringSubmatch(s, -1))] for the files expression. *)
Definition FindAllFiles (s : string) : nat := countMatches O s filesFragment.

End regexp.

(* ===================================================================== *)
(** ** The URL fix-ups of [FetchChannelInfo] (lines 501-516) *)
(* ===================================================================== *)

Definition origin : string := "http://101.ru".

(** "Provide case when got full URL." *)
Definition prefixURL (filename : string) : string :=
  let res := regexp.FindScheme filename in
  let prefix := match res with
                | None => origin
                | Some _ => ""
                end in
  prefix ++ filename.

(** "Provide case with wrong URL." *)
Definition collapseURL (playURL : string) : string :=
  let dres := regexp.FindAllFiles playURL in
  if Nat.eqb dres 2
  then strings.Replace1 playURL "/vardata/modules/musicdb/files/" ""
  else playURL.

Definition normalizeURL (filename : string) : string :=
  collapseURL (prefixURL filename).

(* ===================================================================== *)
(** ** The next-fetch period (lines 518-525) *)
(* ===================================================================== *)

Definition nextFetchPeriod (finishSong serverTime : Z) : Z :=
  let diff := U64.sub finishSong serverTime in
  if (diff <? 5) || (diff >? 1800) then 5 else U64.sub diff 3.

(* ===================================================================== *)
(** ** Panics: the monad of code that runs under [Block.Do] *)
(* ===================================================================== *)

(** What the [Try] of [FetchChannelInfo] can panic with: the three [err]
    values it re-raises, and the run-time error of [Audio[0]] on an empty
    slice. *)
Inductive Exception :=
| ErrGet
| ErrReadAll
| ErrUnmarshal
| ErrIndexOutOfRange.

(** A computation on the [go101] object either returns or panics; in both
    cases the object is in the state the computation left it in. *)
Inductive Outcome (A : Type) :=
| Returned (a : A) (g : go101)
| Panicked (e : Exception) (g : go101).

Arguments Returned {A} a g.
Arguments Panicked {A} e g.

Definition M (A : Type) : Type := go101 -> Outcome A.

Definition ret {A : Type} (a : A) : M A := fun g => Returned a g.

Definition bind {A B : Type} (m : M A) (k : A -> M B) : M B :=
  fun g => match m g with
           | Returned a g' => k a g'
           | Panicked e g' => Panicked e g'
           end.

Definition panic {A : Type} (e : Exception) : M A := fun g => Panicked e g.

Definition this_ : M go101 := fun g => Returned g g.

Definition assign (f : go101 -> go101) : M unit := fun g => Returned tt (f g).

Declare Scope go_scope.
Delimit Scope go_scope with go.
Notation "x <- m ;; k" := (bind m (fun x => k))
  (at level 61, m at next level, right associativity) : go_scope.
Notation "m ;; k" := (bind m (fun _ => k))
  (at level 61, right associativity) : go_scope.

Definition stateOf {A : Type} (o : Outcome A) : go101 :=
  match o with
  | Returned _ g => g
  | Panicked _ g => g
  end.

(** [type Block struct { Try func(); Catch func(Exception); Finally func() }];
    [None] is a [nil] function. *)
Record Block := {
  Try : M unit;
  Catch : option (Exception -> M unit);
  Finally : option (M unit)
}.

(** [func (this Block) Do()].  The deferred calls run last-registered first:
    the recovering closure, which hands a panic of [Try] to [Catch], and then
    [Finally], which runs whatever happened before it. *)
Definition Do (this : Block) : M unit :=
  fun g =>
    let recovered :=
      match Try this g with
      | Returned _ g1 => Returned tt g1
      | Panicked e g1 =>
          match Catch this with
          | None => Panicked e g1
          | Some handler => handler e g1
          end
      end in
    match Finally this with
    | None => recovered
    | Some finally =>
        match recovered with
        | Returned _ g2 => finally g2
        | Panicked e g2 =>
            match finally g2 with
            | Returned _ g3 => Panicked e g3
            | Panicked e' g3 => Panicked e' g3
            end
        end
    end.

(* ===================================================================== *)
(** ** [FetchChannelInfo] *)
(* ===================================================================== *)

(** What the network and the decoder answer during one call.  The bytes of
    the body are not carried: in their place stands what [json.Unmarshal]
    makes of them.  [http.Get] reports an error for a failed exchange only;
    a response with any status code comes back with a [nil] error, and the
    code never reads [StatusCode]. *)
Inductive UnmarshalResult :=
| UnmarshalError
| Unmarshalled (trackInfo : TrackInfo).

Inductive ReadAllResult :=
| ReadAllError
| ReadAllBytes (decoded : UnmarshalResult).

Inductive GetResult :=
| GetError
| GetResponse (StatusCode : Z) (Body : ReadAllResult).

(** [a[0]]: panics on an empty slice. *)
Definition index0 {A : Type} (a : list A) : M A :=
  match a with
  | [] => panic ErrIndexOutOfRange
  | x :: _ => ret x
  end.

Definition onCurrentTrack (f : go101TrackInfo -> go101TrackInfo) : M unit :=
  assign (fun g => set_CurrentTrack (f (CurrentTrack g)) g).

Local Open Scope go_scope.

Definition FetchChannelInfo_Try (net : GetResult) : M unit :=
  match net with
  | GetError => panic ErrGet
  | GetResponse _ Body =>
  match Body with
  | ReadAllError => panic ErrReadAll
  | ReadAllBytes decoded =>
  match decoded with
  | UnmarshalError => panic ErrUnmarshal
  | Unmarshalled trackInfo =>
      let about := About (Result trackInfo) in
      let stat := Stat (Result trackInfo) in
      a <- index0 (About_Audio about) ;;
      onCurrentTrack (set_Track_TrackUid (Audio_TrackUid a)) ;;
      onCurrentTrack (set_Title (About_Title about)) ;;
      onCurrentTrack (set_Artist (About_Artist about)) ;;
      onCurrentTrack (set_Album (Album_Title (About_Album about))) ;;
      onCurrentTrack (set_AlbumDate (Album_ReleaseDate (About_Album about))) ;;
      (* Provide case when got full URL. *)
      a <- index0 (About_Audio about) ;;
      let res := regexp.FindScheme (Audio_Filename a) in
      let prefix := match res with
                    | None => "http://101.ru"
                    | Some _ => ""
                    end in
      a <- index0 (About_Audio about) ;;
      onCurrentTrack (set_PlayURL (prefix ++ Audio_Filename a)) ;;
      (* Provide case with wrong URL. *)
      this <- this_ ;;
      let dres := regexp.FindAllFiles (PlayURL (CurrentTrack this)) in
      (if Nat.eqb dres 2
       then onCurrentTrack (fun t =>
              set_PlayURL (strings.Replace1 (PlayURL t)
                             "/vardata/modules/musicdb/files/" "") t)
       else ret tt) ;;
      (* Calculate next fetch period. *)
      let diff := U64.sub (FinishSong stat) (ServerTime stat) in
      let diff := if (diff <? 5) || (diff >? 1800)
                  then 5
                  else U64.sub diff 3 in
      assign (set_NextFetch diff)
  end end end.

Definition FetchChannelInfo_Catch (e : Exception) : M unit :=
  assign (set_NextFetch 5).

Definition FetchChannelInfo_Finally : M unit := ret tt.

Definition FetchChannelInfo (net : GetResult) : M unit :=
  Do {| Try := FetchChannelInfo_Try net;
        Catch := Some FetchChannelInfo_Catch;
        Finally := Some FetchChannelInfo_Finally |}.

Local Close Scope go_scope.

(* ===================================================================== *)
(** ** Playback: [Play], [Pause], [Resume], [Stop] and the hotkey *)
(* ===================================================================== *)

(** What the rest of the world sees: the calls into the mp3 library and the
    now-playing line of [main] ([FormatTime]'s minutes and seconds are kept
    as numbers). *)
Inductive Event :=
| PlayProcess (playUrl : string)
| MuteProcess
| UnmuteProcess
| StopProcess
| NowPlaying (artist title album : string) (min sec : Z).

(** A routine that cannot panic: the events it causes, in order, and the
    object afterwards. *)
Definition Act : Type := go101 -> list Event * go101.

Definition emit (e : Event) : Act := fun g => ([e], g).

Definition update (f : go101 -> go101) : Act := fun g => ([], f g).

Definition andThen (a b : Act) : Act :=
  fun g => let '(ea, g1) := a g in
           let '(eb, g2) := b g1 in
           ((ea ++ eb)%list, g2).

Declare Scope act_scope.
Delimit Scope act_scope with act.
Notation "a ;; b" := (andThen a b)
  (at level 61, right associativity) : act_scope.

Local Open Scope act_scope.

Definition Pause : Act :=
  emit MuteProcess ;;
  update (set_Status STATUS_PAUSE).

Definition Resume : Act :=
  emit UnmuteProcess ;;
  update (set_Status STATUS_PLAY).

Definition Stop : Act :=
  emit StopProcess ;;
  emit StopProcess ;;
  update (set_Status STATUS_STOP).

Definition Play : Act :=
  fun this =>
    let playUrl := PlayURL (CurrentTrack this) in
    (emit (PlayProcess playUrl) ;;
     update (fun g => set_TrackUid (Track_TrackUid (CurrentTrack g)) g) ;;
     (fun g => if Status g =? STATUS_PAUSE
               then Pause g
               else update (set_Status STATUS_PLAY) g)) this.

(** Which of the two routines the key-press callback of [attach] starts. *)
Inductive Path := ResumePath | PausePath.

Definition hotkeyPath (g : go101) : Path :=
  if (Status g =? STATUS_STOP) || (Status g =? STATUS_PAUSE)
  then ResumePath
  else PausePath.

Definition hotkey : Act :=
  fun g => match hotkeyPath g with
           | ResumePath => Resume g
           | PausePath => Pause g
           end.

(** [FormatTime], before the numbers are printed. *)
Definition FormatTime (s : Z) : Z * Z := (s / 60, s mod 60).

(* ===================================================================== *)
(** ** [Sleep] *)
(* ===================================================================== *)

(** One turn of the loop after [time.Sleep(time.Second)] has returned:
    [status] is [this.Status] as read at that moment. *)
Definition sleepTick (status counter : Z) : Z :=
  if status =? STATUS_PLAY then U64.add counter 1 else counter.

(** [statusAt k] is [this.Status] as the loop reads it after its [k]-th
    one-second sleep ([k = 1] for the first); other goroutines may have
    changed it in between.  [ticks] sleeps have been slept so far.  The
    result is the number of one-second sleeps after which the function
    returns; [None] when [fuel] turns do not suffice. *)
Fixpoint sleepLoop (fuel : nat) (statusAt : nat -> Z) (s counter : Z)
    (ticks : nat) : option nat :=
  match fuel with
  | O => None
  | S fuel' =>
      let ticks' := S ticks in
      let counter' := sleepTick (statusAt ticks') counter in
      if counter' >=? s then Some ticks'
      else sleepLoop fuel' statusAt s counter' ticks'
  end.

Definition Sleep (fuel : nat) (statusAt : nat -> Z) (s : Z) : option nat :=
  sleepLoop fuel statusAt s 0 O.

(** The counter after [n] turns that did not leave the loop. *)
Fixpoint counterAfter (statusAt : nat -> Z) (n : nat) : Z :=
  match n with
  | O => 0
  | S n' => sleepTick (statusAt n) (counterAfter statusAt n')
  end.

(* ===================================================================== *)
(** ** The playing loop of [main] (lines 316-326) *)
(* ===================================================================== *)

(** One turn of the loop up to the call of [Sleep]. *)
Definition loopBody (net : GetResult) (g : go101) : list Event * Outcome unit :=
  match FetchChannelInfo net g with
  | Panicked e g1 => ([], Panicked e g1)
  | Returned _ g1 =>
      if negb (TrackUid g1 =? Track_TrackUid (CurrentTrack g1))
      then
        let '(min, sec) := FormatTime (NextFetch g1) in
        let '(ev, g2) :=
          (emit (NowPlaying (Artist (CurrentTrack g1)) (Title (CurrentTrack g1))
                            (Album (CurrentTrack g1)) min sec) ;;
           Stop ;;
           Play) g1 in
        (ev, Returned tt g2)
      else ([], Returned tt g1)
  end.

(** Successive turns, one per answer of the network.  [Sleep] stands between
    two turns; it only reads the object. *)
Fixpoint loop (nets : list GetResult) (g : go101) : list Event * Outcome unit :=
  match nets with
  | [] => ([], Returned tt g)
  | net :: nets' =>
      match loopBody net g with
      | (ev, Returned _ g1) =>
          let '(ev', o) := loop nets' g1 in ((ev ++ ev')%list, o)
      | (ev, Panicked e g1) => (ev, Panicked e g1)
      end
  end.

Local Close Scope act_scope.

(** Counting in a trace. *)
Definition isRestart (e : Event) : bool :=
  match e with PlayProcess _ => true | _ => false end.

Definition isStop (e : Event) : bool :=
  match e with StopProcess => true | _ => false end.

Definition isNotification (e : Event) : bool :=
  match e with NowPlaying _ _ _ _ _ => true | _ => false end.

Definition restarts (ev : list Event) : nat := List.length (filter isRestart ev).

Definition stops (ev : list Event) : nat := List.length (filter isStop ev).

Definition notifications (ev : list Event) : nat :=
  List.length (filter isNotification ev).

(* ===================================================================== *)
(** ** Notions used to state the properties *)
(* ===================================================================== *)

(** The track entry a successful call builds from the decoded answer. *)
Definition fetchedTrack (trackInfo : TrackInfo)
    (a : TrackInfo__Result__About__Audio) : go101TrackInfo :=
  {| Track_TrackUid := Audio_TrackUid a;
     Artist := About_Artist (About (Result trackInfo));
     Title := About_Title (About (Result trackInfo));
     Album := Album_Title (About_Album (About (Result trackInfo)));
     AlbumDate := Album_ReleaseDate (About_Album (About (Result trackInfo)));
     PlayURL := normalizeURL (Audio_Filename a) |}.

(** A decoded answer with one audio entry and the given timing. *)
Definition sampleTrackInfo (uid : Z) (filename : string)
    (finishSong serverTime : Z) : TrackInfo :=
  {| TrackInfo_Status := 1;
     Result :=
       {| About :=
            {| About_Title := "Title";
               About_Artist := "Artist";
               About_Audio := [ {| Audio_TrackUid := uid;
                                   Audio_Filename := filename |} ];
               About_Album := {| Album_Title := "Album";
                                 Album_ReleaseDate := "2017" |} |};
          Stat := {| StartSong := 0;
                     FinishSong := finishSong;
                     ServerTime := serverTime |} |};
     ErrorCode := 0 |}.

(** A response whose body was read and decoded. *)
Definition answer (code : Z) (trackInfo : TrackInfo) : GetResult :=
  GetResponse code (ReadAllBytes (Unmarshalled trackInfo)).

(** The answers on which the [Try] of [FetchChannelInfo] panics: [http.Get]
    fails, the body cannot be read, the body does not decode, or the decoded
    answer has no audio entry. *)
Definition fetchFails (net : GetResult) : Prop :=
  match net with
  | GetError => True
  | GetResponse _ ReadAllError => True
  | GetResponse _ (ReadAllBytes UnmarshalError) => True
  | GetResponse _ (ReadAllBytes (Unmarshalled trackInfo)) =>
      About_Audio (About (Result trackInfo)) = []
  end.

(** A response whose status code is outside 200..299. *)
Definition nonSuccessStatus (net : GetResult) : Prop :=
  match net with
  | GetError => False
  | GetResponse code _ => code < 200 \/ 299 < code
  end.

(** The identifier of the track a successful fetch reports. *)
Definition freshTrackUid (net : GetResult) : option Z :=
  match net with
  | GetResponse _ (ReadAllBytes (Unmarshalled trackInfo)) =>
      match About_Audio (About (Result trackInfo)) with
      | a :: _ => Some (Audio_TrackUid a)
      | [] => None
      end
  | _ => None
  end.

(** The retained track is the one playback was last started for. *)
Definition synced (g : go101) : Prop :=
  TrackUid g = Track_TrackUid (CurrentTrack g).

(** A server error whose body nevertheless decodes to a track. *)
Definition answer500 : GetResult :=
  answer 500 (sampleTrackInfo 7 "/a.mp3" 1000 900).

(** The failures as the specification lists them: those of [fetchFails], and
    any response with a non-success status code. *)
Definition listedFailure (net : GetResult) : Prop :=
  fetchFails net \/ nonSuccessStatus net.

(** Three answers of the station: track 1, track 1 again, then track 2. *)
Definition answersAAB : list GetResult :=
  [ answer 200 (sampleTrackInfo 1 "/a.mp3" 1000 995);
    answer 200 (sampleTrackInfo 1 "/a.mp3" 1000 999);
    answer 200 (sampleTrackInfo 2 "/b.mp3" 1300 1000) ].

(** How many of the first [n] reads of the status gave [STATUS_PLAY]. *)
Fixpoint playingTicks (statusAt : nat -> Z) (n : nat) : nat :=
  match n with
  | O => O
  | S n' => Nat.add (if statusAt n =? STATUS_PLAY then 1%nat else 0%nat)
                    (playingTicks statusAt n')
  end.

(** Paused when read at ticks 3, 4, 5 and 6, playing at every other tick. *)
Definition pausedAt3to6 (k : nat) : Z :=
  if (3 <=? k)%nat && (k <=? 6)%nat then STATUS_PAUSE else STATUS_PLAY.

(** No occurrence of [lit] in [s] starts at an offset below [i]. *)
Definition noneBefore (lit : string) (i : nat) (s : string) : Prop :=
  forall j : nat,
    (j < i)%nat -> strings.HasPrefix (strings.drop j s) lit = false.

(** The claim's reading of "already an absolute URL": the filename begins
    with [http:] and at least one more character follows. *)
Definition leadingScheme (filename : string) : bool :=
  strings.HasPrefix filename "http:" && (5 <? String.length filename)%nat.

(** A relative filename that carries the marker further in. *)
Definition markerInside : string := "/a/http:b".

(** The marker at the start, followed by a line feed. *)
Definition markerThenLF : string := "http:" ++ String regexp.LF "".

(** A filename in which deleting the first fragment joins the text around
    it into a new one. *)
Definition splicing : string :=
  "/vardata/modules/" ++ regexp.filesFragment ++ "musicdb/files/"
  ++ regexp.filesFragment ++ "x.mp3".

(** An absolute URL in which the fragment stands between the marker and a
    line feed. *)
Definition markerLost : string :=
  "http:" ++ regexp.filesFragment ++ String regexp.LF regexp.filesFragment.

(** The URL of the comment in [FetchChannelInfo], with a host and a file. *)
Definition doubled : string :=
  "http://cdn1.101.ru/vardata/modules/musicdb/files//vardata/modules/musicdb/files/a.mp3".

(* ===================================================================== *)
(** ** Further code of [main.go] *)
(* ===================================================================== *)

(** [Cleanup] (lines 333-336), the callback of the signal goroutine. *)
Definition Cleanup : Act := Stop.

Definition set_CurrentGroup (gid : Z) (g : go101) : go101 :=
  {| CurrentGroup := gid; CurrentChannel := CurrentChannel g;
     CurrentTrack := CurrentTrack g; TrackUid := TrackUid g;
     Status := Status g; NextFetch := NextFetch g |}.

Definition set_CurrentChannel (cid : Z) (g : go101) : go101 :=
  {| CurrentGroup := CurrentGroup g; CurrentChannel := cid;
     CurrentTrack := CurrentTrack g; TrackUid := TrackUid g;
     Status := Status g; NextFetch := NextFetch g |}.

(** The [else] branch of the choice of the channel in [main] (lines
    301-310), which runs only when the flag [-c] is not 0; the whole choice,
    with its test of the flag, is [chooseChannel] below.  [ChannelGroups] is
    presented as the list of its keys, each with the keys of the group's
    [Channels], in the order in which the two [range] loops visit them (Go
    leaves that order open).  [channel] is [uint64( *channelPtr )]. *)
Fixpoint rangeChannels (cids : list Z) (gid channel : Z) (g : go101) : go101 :=
  match cids with
  | [] => g
  | cid :: cids' =>
      rangeChannels cids' gid channel
        (if cid =? channel then set_CurrentGroup gid g else g)
  end.

Fixpoint rangeGroups (groups : list (Z * list Z)) (channel : Z) (g : go101)
    : go101 :=
  match groups with
  | [] => g
  | (gid, cids) :: groups' =>
      rangeGroups groups' channel (rangeChannels cids gid channel g)
  end.

Definition chooseByFlag (groups : list (Z * list Z)) (channelPtr : Z)
    (g : go101) : go101 :=
  set_CurrentChannel (U64.wrap channelPtr)
    (rangeGroups groups (U64.wrap channelPtr) g).

(** How often the identifier changes along a run of fetches, starting from
    the identifier [last]; a failed fetch ([None]) brings no identifier. *)
Fixpoint changes (last : Z) (ids : list (option Z)) : nat :=
  match ids with
  | [] => O
  | None :: ids' => changes last ids'
  | Some t :: ids' =>
      if t =? last then changes last ids' else S (changes t ids')
  end.

Definition isMute (e : Event) : bool :=
  match e with MuteProcess => true | _ => false end.

(** A block whose [Try] panics after an assignment and that has no
    [Catch]. *)
Definition blockWithoutCatch : Block :=
  {| Try := bind (assign (set_NextFetch 1)) (fun _ => panic ErrGet);
     Catch := None;
     Finally := Some (assign (set_Status STATUS_STOP)) |}.

(** Two groups; channel 7 belongs to the second one only. *)
Definition sampleGroups : list (Z * list Z) := [(1, [3; 4]); (2, [7; 9])].

Definition playingAlways (k : nat) : Z := STATUS_PLAY.

Definition pausedAlways (k : nat) : Z := STATUS_PAUSE.

(* ===================================================================== *)
(** ** Notions for runs from program start *)
(* ===================================================================== *)








(** An object in the middle of a session: track 7 retained and started,
    playback paused, the next fetch due in 97 seconds. *)
Definition busyObject : go101 :=
  set_Status STATUS_PAUSE
    (stateOf (snd (loopBody (answer 200 (sampleTrackInfo 7 "/a.mp3" 1000 900))
                            go101o))).

(** The choice of group and channel in [main] (lines 273-310).  With the
    flag at 0 the two numbers are read from standard input: [typedGroup] and
    [typedChannel] are what [strconv.ParseUint] returns for the two lines
    (its error is dropped).  Otherwise the groups are searched for the
    channel of the flag. *)
Definition chooseChannel (groups : list (Z * list Z)) (channelPtr : Z)
    (typedGroup typedChannel : Z) (g : go101) : go101 :=
  if channelPtr =? 0
  then set_CurrentChannel typedChannel (set_CurrentGroup typedGroup g)
  else chooseByFlag groups channelPtr g.

(* ===================================================================== *)
(** * Properties *)
(* ===================================================================== *)

(** ** Unsigned arithmetic *)

Lemma U64_modulus_eq : U64.modulus = 18446744073709551616.
Proof. reflexivity. Qed.

Lemma U64_wrap_small (x : Z) : U64.inRange x -> U64.wrap x = x.
Proof. unfold U64.inRange, U64.wrap. intros H. apply Z.mod_small. exact H. Qed.

Lemma U64_sub_no_borrow (x y : Z) :
  0 <= y -> y <= x -> x < U64.modulus -> U64.sub x y = x - y.
Proof.
  intros Hy Hle Hx. unfold U64.sub. apply U64_wrap_small.
  unfold U64.inRange. lia.
Qed.

Lemma U64_sub_borrow (x y : Z) :
  0 <= x -> x < y -> y < U64.modulus ->
  U64.sub x y = U64.modulus - (y - x).
Proof.
  intros Hx Hlt Hy. unfold U64.sub, U64.wrap.
  replace (x - y) with ((U64.modulus - (y - x)) + (-1) * U64.modulus) by ring.
  rewrite Z.mod_add by (rewrite U64_modulus_eq; lia).
  apply Z.mod_small. lia.
Qed.

Lemma U64_sub_inRange (x y : Z) : U64.inRange (U64.sub x y).
Proof.
  unfold U64.inRange, U64.sub, U64.wrap. apply Z.mod_pos_bound. reflexivity.
Qed.

Lemma U64_add_no_carry (x y : Z) :
  0 <= x -> 0 <= y -> x + y < U64.modulus -> U64.add x y = x + y.
Proof.
  intros Hx Hy Hlt. unfold U64.add, U64.wrap. apply Z.mod_small. lia.
Qed.

(** ** The next-fetch period *)

Lemma nextFetchPeriod_of_diff (finishSong serverTime : Z) :
  let diff := U64.sub finishSong serverTime in
  nextFetchPeriod finishSong serverTime =
  if (diff <? 5) || (diff >? 1800) then 5 else diff - 3.
Proof.
  intros diff. unfold nextFetchPeriod. fold diff.
  destruct ((diff <? 5) || (diff >? 1800)) eqn:E; [reflexivity|].
  apply orb_false_iff in E. destruct E as [E1 E2].
  apply Z.ltb_ge in E1.
  pose proof (U64_sub_inRange finishSong serverTime) as R. fold diff in R.
  apply U64_sub_no_borrow; unfold U64.inRange in R; lia.
Qed.

Lemma nextFetchPeriod_bounds (finishSong serverTime : Z) :
  2 <= nextFetchPeriod finishSong serverTime <= 1797.
Proof.
  rewrite nextFetchPeriod_of_diff.
  destruct (U64.sub finishSong serverTime <? 5) eqn:E1; simpl; [lia|].
  destruct (U64.sub finishSong serverTime >? 1800) eqn:E2; [lia|].
  apply Z.ltb_ge in E1. rewrite Z.gtb_ltb in E2. apply Z.ltb_ge in E2. lia.
Qed.

(** ** [FetchChannelInfo] *)

Lemma FetchChannelInfo_success (code : Z) (trackInfo : TrackInfo)
    (a : TrackInfo__Result__About__Audio)
    (rest : list TrackInfo__Result__About__Audio) (g : go101) :
  About_Audio (About (Result trackInfo)) = a :: rest ->
  FetchChannelInfo (GetResponse code (ReadAllBytes (Unmarshalled trackInfo))) g =
  Returned tt
    (set_NextFetch
       (nextFetchPeriod (FinishSong (Stat (Result trackInfo)))
                        (ServerTime (Stat (Result trackInfo))))
       (set_CurrentTrack (fetchedTrack trackInfo a) g)).
Proof.
  intros Ha.
  unfold FetchChannelInfo, Do, FetchChannelInfo_Try, FetchChannelInfo_Finally.
  cbn [Try Catch Finally]. rewrite Ha.
  unfold fetchedTrack, normalizeURL, collapseURL, prefixURL, nextFetchPeriod,
    origin.
  cbv beta iota zeta delta
    [bind index0 ret onCurrentTrack assign this_ FetchChannelInfo_Catch
     set_CurrentTrack set_NextFetch set_Track_TrackUid set_Title set_Artist
     set_Album set_AlbumDate set_PlayURL
     CurrentGroup CurrentChannel CurrentTrack TrackUid Status NextFetch
     Track_TrackUid Artist Title Album AlbumDate PlayURL].
  destruct (regexp.FindScheme (Audio_Filename a)); cbn [append];
    match goal with
    | |- context [Nat.eqb ?n 2] => destruct (Nat.eqb n 2)
    end; reflexivity.
Qed.

Lemma FetchChannelInfo_failure (net : GetResult) (g : go101) :
  fetchFails net ->
  FetchChannelInfo net g = Returned tt (set_NextFetch 5 g).
Proof.
  intros Hf.
  destruct net as [|code [|[|trackInfo]]]; try reflexivity.
  simpl in Hf.
  unfold FetchChannelInfo, Do, FetchChannelInfo_Try. cbn [Try Catch Finally].
  rewrite Hf. reflexivity.
Qed.

Lemma FetchChannelInfo_Try_success (code : Z) (trackInfo : TrackInfo)
    (a : TrackInfo__Result__About__Audio)
    (rest : list TrackInfo__Result__About__Audio) (g : go101) :
  About_Audio (About (Result trackInfo)) = a :: rest ->
  FetchChannelInfo_Try
    (GetResponse code (ReadAllBytes (Unmarshalled trackInfo))) g =
  Returned tt
    (set_NextFetch
       (nextFetchPeriod (FinishSong (Stat (Result trackInfo)))
                        (ServerTime (Stat (Result trackInfo))))
       (set_CurrentTrack (fetchedTrack trackInfo a) g)).
Proof.
  intros Ha. unfold FetchChannelInfo_Try. rewrite Ha.
  unfold fetchedTrack, normalizeURL, collapseURL, prefixURL, nextFetchPeriod,
    origin.
  cbv beta iota zeta delta
    [bind index0 ret onCurrentTrack assign this_
     set_CurrentTrack set_NextFetch set_Track_TrackUid set_Title set_Artist
     set_Album set_AlbumDate set_PlayURL
     CurrentGroup CurrentChannel CurrentTrack TrackUid Status NextFetch
     Track_TrackUid Artist Title Album AlbumDate PlayURL].
  destruct (regexp.FindScheme (Audio_Filename a)); cbn [append];
    match goal with
    | |- context [Nat.eqb ?n 2] => destruct (Nat.eqb n 2)
    end; reflexivity.
Qed.

Lemma FetchChannelInfo_Try_failure (net : GetResult) (g : go101) :
  fetchFails net -> exists e, FetchChannelInfo_Try net g = Panicked e g.
Proof.
  intros Hf.
  destruct net as [|code [|[|trackInfo]]]; try (eexists; reflexivity).
  simpl in Hf. unfold FetchChannelInfo_Try. rewrite Hf.
  eexists. reflexivity.
Qed.

Lemma freshTrackUid_Some (net : GetResult) (t : Z) :
  freshTrackUid net = Some t ->
  exists code trackInfo a rest,
    net = answer code trackInfo /\
    About_Audio (About (Result trackInfo)) = a :: rest /\
    Audio_TrackUid a = t.
Proof.
  destruct net as [|code [|[|trackInfo]]]; simpl; try discriminate.
  destruct (About_Audio (About (Result trackInfo))) as [|a rest] eqn:E;
    [discriminate|].
  intros H. injection H as <-.
  exists code, trackInfo, a, rest. auto.
Qed.

Lemma freshTrackUid_None (net : GetResult) :
  freshTrackUid net = None -> fetchFails net.
Proof.
  destruct net as [|code [|[|trackInfo]]]; simpl; auto.
  destruct (About_Audio (About (Result trackInfo))); [reflexivity|discriminate].
Qed.

Lemma FetchChannelInfo_returns (net : GetResult) (g : go101) :
  exists g', FetchChannelInfo net g = Returned tt g'.
Proof.
  destruct (freshTrackUid net) as [t|] eqn:E.
  - apply freshTrackUid_Some in E.
    destruct E as (code & trackInfo & a & rest & -> & Ha & _).
    eexists. apply (FetchChannelInfo_success code trackInfo a rest g Ha).
  - apply freshTrackUid_None in E. eexists.
    apply FetchChannelInfo_failure. exact E.
Qed.

(** ** C1 *)

(** C1.  On a successful fetch whose server time does not exceed the finish
    time, the next-fetch period is 5 when the difference is below 5 or above
    1800 and the difference less 3 otherwise; it is never 0; and the
    differences 0, 4, 5, 6, 1797, 1800, 1801, 900 give the periods 5, 5, 2,
    3, 1794, 1797, 5, 897. *)
Theorem interval_policy_on_success
    (code : Z) (trackInfo : TrackInfo) (a : TrackInfo__Result__About__Audio)
    (rest : list TrackInfo__Result__About__Audio) (g : go101) :
  About_Audio (About (Result trackInfo)) = a :: rest ->
  let finishSong := FinishSong (Stat (Result trackInfo)) in
  let serverTime := ServerTime (Stat (Result trackInfo)) in
  0 <= serverTime -> serverTime <= finishSong -> finishSong < U64.modulus ->
  let diff := finishSong - serverTime in
  let next := NextFetch (stateOf (FetchChannelInfo (answer code trackInfo) g)) in
  next = (if (diff <? 5) || (diff >? 1800) then 5 else diff - 3) /\
  next <> 0 /\
  0 < next /\
  (forall d expected,
     In (d, expected)
        [(0, 5); (4, 5); (5, 2); (6, 3); (1797, 1794); (1800, 1797);
         (1801, 5); (900, 897)] ->
     diff = d -> next = expected).
Proof.
  intros Ha finishSong serverTime H0 Hle Hlt diff next.
  assert (Hnext : next = nextFetchPeriod finishSong serverTime).
  { unfold next, answer. rewrite (FetchChannelInfo_success _ _ _ _ _ Ha).
    reflexivity. }
  assert (Hpol : next = if (diff <? 5) || (diff >? 1800) then 5 else diff - 3).
  { rewrite Hnext, nextFetchPeriod_of_diff.
    rewrite (U64_sub_no_borrow finishSong serverTime) by lia. reflexivity. }
  pose proof (nextFetchPeriod_bounds finishSong serverTime) as Hb.
  rewrite <- Hnext in Hb.
  repeat split; try lia; try exact Hpol.
  intros d expected Hin Hd. rewrite Hpol, Hd.
  simpl in Hin.
  repeat (destruct Hin as [Hin|Hin];
          [injection Hin as <- <-; reflexivity|]).
  contradiction.
Qed.

Lemma interval_policy_on_success_witness :
  NextFetch (stateOf (FetchChannelInfo
                        (answer 200 (sampleTrackInfo 7 "/a.mp3" 1900 1000))
                        go101o)) = 897.
Proof.
  destruct (interval_policy_on_success 200
              (sampleTrackInfo 7 "/a.mp3" 1900 1000)
              {| Audio_TrackUid := 7; Audio_Filename := "/a.mp3" |} []
              go101o eq_refl) as [H _].
  - simpl. lia.
  - simpl. lia.
  - rewrite U64_modulus_eq. simpl. lia.
  - rewrite H. reflexivity.
Defined.

(** ** C9 *)

(** C9.  The difference is taken in unsigned 64-bit arithmetic.  On a
    fetch that succeeds (the track of the answer is taken over, the fallback
    of the failure branch is not what sets the period) and whose server time
    exceeds the finish time, the difference the code works with is 2^64 less
    the excess, and the period stored is computed from that wrapped value.
    When the excess is below 2^64 - 1800 the wrapped value is above 1800 and
    the period is 5; in every case the period lies between 2 and 1797, so
    reversed timestamps give neither a huge nor a zero period. *)
Theorem reversed_timestamps_give_five
    (code : Z) (trackInfo : TrackInfo) (a : TrackInfo__Result__About__Audio)
    (rest : list TrackInfo__Result__About__Audio) (g : go101) :
  About_Audio (About (Result trackInfo)) = a :: rest ->
  let finishSong := FinishSong (Stat (Result trackInfo)) in
  let serverTime := ServerTime (Stat (Result trackInfo)) in
  U64.inRange finishSong -> U64.inRange serverTime ->
  finishSong < serverTime ->
  let wrapped := U64.modulus - (serverTime - finishSong) in
  let g' := stateOf (FetchChannelInfo (answer code trackInfo) g) in
  FetchChannelInfo_Try (answer code trackInfo) g = Returned tt g' /\
  FetchChannelInfo (answer code trackInfo) g = Returned tt g' /\
  CurrentTrack g' = fetchedTrack trackInfo a /\
  U64.sub finishSong serverTime = wrapped /\
  NextFetch g' =
  (if (wrapped <? 5) || (wrapped >? 1800) then 5 else wrapped - 3) /\
  (serverTime - finishSong < U64.modulus - 1800 ->
   1800 < wrapped /\ NextFetch g' = 5) /\
  2 <= NextFetch g' <= 1797.
Proof.
  intros Ha finishSong serverTime Hf Hs Hlt wrapped g'.
  unfold U64.inRange in Hf, Hs.
  assert (Hsub : U64.sub finishSong serverTime = wrapped)
    by (apply U64_sub_borrow; lia).
  assert (Hg : g' = set_NextFetch (nextFetchPeriod finishSong serverTime)
                      (set_CurrentTrack (fetchedTrack trackInfo a) g)).
  { unfold g', answer.
    rewrite (FetchChannelInfo_success code trackInfo a rest g Ha).
    reflexivity. }
  assert (Hnext : NextFetch g' =
                  if (wrapped <? 5) || (wrapped >? 1800) then 5
                  else wrapped - 3).
  { rewrite Hg. cbn [NextFetch set_NextFetch].
    rewrite nextFetchPeriod_of_diff, Hsub. reflexivity. }
  split.
  { rewrite Hg. unfold answer.
    apply (FetchChannelInfo_Try_success code trackInfo a rest g Ha). }
  split.
  { rewrite Hg. unfold answer.
    apply (FetchChannelInfo_success code trackInfo a rest g Ha). }
  split; [rewrite Hg; reflexivity|].
  split; [exact Hsub|]. split; [exact Hnext|]. split.
  - intros Hex. assert (Hbig : 1800 < wrapped) by (unfold wrapped; lia).
    split; [exact Hbig|]. rewrite Hnext.
    replace (wrapped >? 1800) with true.
    + rewrite orb_true_r. reflexivity.
    + symmetry. rewrite Z.gtb_ltb. apply Z.ltb_lt. exact Hbig.
  - rewrite Hg. cbn [NextFetch set_NextFetch]. apply nextFetchPeriod_bounds.
Qed.

Lemma reversed_timestamps_give_five_witness :
  (NextFetch (stateOf (FetchChannelInfo
                         (answer 200 (sampleTrackInfo 9 "/b.mp3" 1000 1010))
                         busyObject)) = 5 /\
   Track_TrackUid
     (CurrentTrack (stateOf (FetchChannelInfo
                               (answer 200 (sampleTrackInfo 9 "/b.mp3" 1000 1010))
                               busyObject))) = 9) /\
  NextFetch (stateOf (FetchChannelInfo
                        (answer 200 (sampleTrackInfo 9 "/b.mp3" 0
                                       (U64.modulus - 100)))
                        busyObject)) = 97.
Proof.
  split.
  - destruct (reversed_timestamps_give_five 200
                (sampleTrackInfo 9 "/b.mp3" 1000 1010)
                {| Audio_TrackUid := 9; Audio_Filename := "/b.mp3" |} []
                busyObject eq_refl) as (_ & _ & Ht & _ & _ & H & _).
    + unfold U64.inRange. rewrite U64_modulus_eq. simpl. lia.
    + unfold U64.inRange. rewrite U64_modulus_eq. simpl. lia.
    + simpl. lia.
    + split.
      * apply H. rewrite U64_modulus_eq. simpl. lia.
      * rewrite Ht. reflexivity.
  - destruct (reversed_timestamps_give_five 200
                (sampleTrackInfo 9 "/b.mp3" 0 (U64.modulus - 100))
                {| Audio_TrackUid := 9; Audio_Filename := "/b.mp3" |} []
                busyObject eq_refl) as (_ & _ & _ & _ & H & _).
    + unfold U64.inRange. rewrite U64_modulus_eq. simpl. lia.
    + unfold U64.inRange. rewrite U64_modulus_eq. simpl. lia.
    + rewrite U64_modulus_eq. simpl. lia.
    + rewrite H. reflexivity.
Defined.

(** ** C4 *)

(** C4, as stated, fails: a response with status 500 whose body decodes to a
    track is not treated as a failure.  The status code is never read, the
    track is taken over and the period is computed from its timing. *)
Lemma fetch_failure_ignores_status_code :
  listedFailure answer500 /\
  FetchChannelInfo answer500 go101o <> Returned tt (set_NextFetch 5 go101o) /\
  NextFetch (stateOf (FetchChannelInfo answer500 go101o)) = 97 /\
  Track_TrackUid (CurrentTrack (stateOf (FetchChannelInfo answer500 go101o))) = 7 /\
  Track_TrackUid (CurrentTrack go101o) = 0.
Proof.
  split; [right; simpl; lia|].
  split; [|repeat split].
  intros H. apply (f_equal (fun o => NextFetch (stateOf o))) in H.
  vm_compute in H. discriminate H.
Qed.

(** C4, amended.  On every failure the code detects (an error of [http.Get],
    an error reading the body, a body that does not decode, a decoded answer
    without audio entry), [FetchChannelInfo] returns normally with
    [NextFetch] set to 5 and every other field as before: the retained
    track, the identifier of the track last started, the playback status.
    These are all the failures there are: the [Try] panics exactly on them.
    The status code is not inspected: the outcome is the same for every
    status code, and a response whose body decodes to an answer with an audio
    entry is a success whatever its status code, its track being taken over
    and the period computed from its timing. *)
Theorem fetch_failure_sets_five_only (net : GetResult) (g : go101) :
  (fetchFails net ->
   FetchChannelInfo net g = Returned tt (set_NextFetch 5 g) /\
   NextFetch (stateOf (FetchChannelInfo net g)) = 5 /\
   CurrentTrack (stateOf (FetchChannelInfo net g)) = CurrentTrack g /\
   TrackUid (stateOf (FetchChannelInfo net g)) = TrackUid g /\
   Status (stateOf (FetchChannelInfo net g)) = Status g /\
   CurrentChannel (stateOf (FetchChannelInfo net g)) = CurrentChannel g /\
   CurrentGroup (stateOf (FetchChannelInfo net g)) = CurrentGroup g) /\
  (fetchFails net <->
   exists e g1, FetchChannelInfo_Try net g = Panicked e g1) /\
  (forall code code' Body,
     net = GetResponse code Body ->
     FetchChannelInfo (GetResponse code' Body) g = FetchChannelInfo net g) /\
  (forall code trackInfo a rest,
     net = answer code trackInfo ->
     About_Audio (About (Result trackInfo)) = a :: rest ->
     ~ fetchFails net /\
     FetchChannelInfo net g =
     Returned tt
       (set_NextFetch
          (nextFetchPeriod (FinishSong (Stat (Result trackInfo)))
                           (ServerTime (Stat (Result trackInfo))))
          (set_CurrentTrack (fetchedTrack trackInfo a) g))).
Proof.
  split; [|split; [|split]].
  - intros Hf. rewrite (FetchChannelInfo_failure net g Hf). repeat split.
  - split.
    + intros Hf. destruct (FetchChannelInfo_Try_failure net g Hf) as [e He].
      exists e, g. exact He.
    + intros (e & g1 & He).
      destruct (freshTrackUid net) as [t|] eqn:E;
        [|apply freshTrackUid_None; exact E].
      apply freshTrackUid_Some in E.
      destruct E as (code & trackInfo & a & rest & -> & Ha & _).
      unfold answer in He.
      rewrite (FetchChannelInfo_Try_success code trackInfo a rest g Ha) in He.
      discriminate He.
  - intros code code' Body ->. reflexivity.
  - intros code trackInfo a rest -> Ha. split.
    + simpl. rewrite Ha. discriminate.
    + apply (FetchChannelInfo_success code trackInfo a rest g Ha).
Qed.

Lemma fetch_failure_sets_five_only_witness :
  FetchChannelInfo (GetResponse 404 (ReadAllBytes UnmarshalError)) busyObject =
  Returned tt (set_NextFetch 5 busyObject) /\
  Track_TrackUid
    (CurrentTrack
       (stateOf (FetchChannelInfo (GetResponse 404 (ReadAllBytes UnmarshalError))
                                  busyObject))) = 7 /\
  TrackUid (stateOf (FetchChannelInfo (GetResponse 404 (ReadAllBytes UnmarshalError))
                                      busyObject)) = 7 /\
  Status (stateOf (FetchChannelInfo (GetResponse 404 (ReadAllBytes UnmarshalError))
                                    busyObject)) = STATUS_PAUSE /\
  NextFetch busyObject = 97.
Proof.
  destruct (fetch_failure_sets_five_only
              (GetResponse 404 (ReadAllBytes UnmarshalError)) busyObject)
    as (H & _).
  destruct H as (H0 & _ & Ht & Hu & Hs & _); [simpl; exact I|].
  split; [exact H0|].
  split; [rewrite Ht; reflexivity|].
  split; [rewrite Hu; reflexivity|].
  split; [rewrite Hs; reflexivity|reflexivity].
Defined.

(** ** C3 *)

Lemma loopBody_success (code : Z) (trackInfo : TrackInfo)
    (a : TrackInfo__Result__About__Audio)
    (rest : list TrackInfo__Result__About__Audio) (g : go101) :
  About_Audio (About (Result trackInfo)) = a :: rest ->
  let next := nextFetchPeriod (FinishSong (Stat (Result trackInfo)))
                              (ServerTime (Stat (Result trackInfo))) in
  let track := fetchedTrack trackInfo a in
  loopBody (answer code trackInfo) g =
  if TrackUid g =? Audio_TrackUid a
  then ([], Returned tt (set_NextFetch next (set_CurrentTrack track g)))
  else ([NowPlaying (Artist track) (Title track) (Album track)
                    (next / 60) (next mod 60);
         StopProcess; StopProcess; PlayProcess (PlayURL track)],
        Returned tt
          (set_Status STATUS_PLAY
             (set_TrackUid (Audio_TrackUid a)
                (set_Status STATUS_STOP
                   (set_NextFetch next (set_CurrentTrack track g)))))).
Proof.
  intros Ha next track. unfold loopBody, answer.
  rewrite (FetchChannelInfo_success code trackInfo a rest g Ha).
  fold next track.
  cbn [TrackUid set_NextFetch set_CurrentTrack CurrentTrack Track_TrackUid
       NextFetch].
  replace (Track_TrackUid track) with (Audio_TrackUid a) by reflexivity.
  destruct (TrackUid g =? Audio_TrackUid a); reflexivity.
Qed.

Lemma loopBody_failure (net : GetResult) (g : go101) :
  fetchFails net -> synced g ->
  loopBody net g = ([], Returned tt (set_NextFetch 5 g)).
Proof.
  intros Hf Hs. unfold loopBody.
  rewrite (FetchChannelInfo_failure net g Hf).
  cbn [TrackUid set_NextFetch CurrentTrack].
  unfold synced in Hs. rewrite Hs, Z.eqb_refl. reflexivity.
Qed.


Lemma loopBody_synced (net : GetResult) (g : go101) :
  synced g -> synced (stateOf (snd (loopBody net g))).
Proof.
  intros Hs. destruct (freshTrackUid net) as [t|] eqn:E.
  - apply freshTrackUid_Some in E.
    destruct E as (code & trackInfo & a & rest & -> & Ha & _).
    rewrite (loopBody_success code trackInfo a rest g Ha).
    destruct (TrackUid g =? Audio_TrackUid a) eqn:Eq.
    + apply Z.eqb_eq in Eq. unfold synced. simpl. exact Eq.
    + reflexivity.
  - apply freshTrackUid_None in E.
    rewrite (loopBody_failure net g E Hs). exact Hs.
Qed.







Lemma last_map_Some (l : list Z) (d : Z) :
  match List.last (map Some l) (Some d) with
  | Some t => t
  | None => 0
  end = List.last l d.
Proof.
  induction l as [|x l IH]; [reflexivity|].
  destruct l as [|y l]; [reflexivity|]. exact IH.
Qed.







(** The end-to-end scenario: track 1, track 1 again, track 2 give two starts
    and two now-playing lines in all. *)
Example loop_AAB :
  restarts (fst (loop answersAAB go101o)) = 2%nat /\
  notifications (fst (loop answersAAB go101o)) = 2%nat /\
  stops (fst (loop answersAAB go101o)) = 4%nat.
Proof. vm_compute. repeat split. Qed.

(** ** C8 *)

(** C8.  On a key press, when the status is stopped or paused the resume
    routine runs (the backend is unmuted) and the status becomes playing;
    otherwise, and so when the status is playing, the pause routine runs
    (the backend is muted) and the status becomes paused. *)
Theorem toggle_semantics (g : go101) :
  (Status g = STATUS_STOP \/ Status g = STATUS_PAUSE ->
   hotkeyPath g = ResumePath /\
   hotkey g = Resume g /\
   fst (hotkey g) = [UnmuteProcess] /\
   Status (snd (hotkey g)) = STATUS_PLAY) /\
  (~ (Status g = STATUS_STOP \/ Status g = STATUS_PAUSE) ->
   hotkeyPath g = PausePath /\
   hotkey g = Pause g /\
   fst (hotkey g) = [MuteProcess] /\
   Status (snd (hotkey g)) = STATUS_PAUSE) /\
  (Status g = STATUS_PLAY ->
   hotkeyPath g = PausePath /\
   fst (hotkey g) = [MuteProcess] /\
   Status (snd (hotkey g)) = STATUS_PAUSE).
Proof.
  assert (Hres : Status g = STATUS_STOP \/ Status g = STATUS_PAUSE ->
                 hotkeyPath g = ResumePath).
  { intros H. unfold hotkeyPath.
    destruct H as [H|H]; rewrite H; reflexivity. }
  assert (Hpau : ~ (Status g = STATUS_STOP \/ Status g = STATUS_PAUSE) ->
                 hotkeyPath g = PausePath).
  { intros H. unfold hotkeyPath.
    destruct (Status g =? STATUS_STOP) eqn:E1.
    - apply Z.eqb_eq in E1. contradiction H. left. exact E1.
    - destruct (Status g =? STATUS_PAUSE) eqn:E2.
      + apply Z.eqb_eq in E2. contradiction H. right. exact E2.
      + reflexivity. }
  split; [|split].
  - intros H. specialize (Hres H). unfold hotkey. rewrite Hres.
    repeat split.
  - intros H. specialize (Hpau H). unfold hotkey. rewrite Hpau.
    repeat split.
  - intros H.
    assert (Hn : ~ (Status g = STATUS_STOP \/ Status g = STATUS_PAUSE)).
    { rewrite H. intros [C|C]; discriminate C. }
    specialize (Hpau Hn). unfold hotkey. rewrite Hpau. repeat split.
Qed.

Lemma toggle_semantics_witness :
  Status (snd (hotkey (set_Status STATUS_STOP go101o))) = STATUS_PLAY /\
  Status (snd (hotkey (set_Status STATUS_PAUSE go101o))) = STATUS_PLAY /\
  Status (snd (hotkey (set_Status STATUS_PLAY go101o))) = STATUS_PAUSE.
Proof.
  split; [|split].
  - apply (toggle_semantics (set_Status STATUS_STOP go101o)).
    left. reflexivity.
  - apply (toggle_semantics (set_Status STATUS_PAUSE go101o)).
    right. reflexivity.
  - apply (toggle_semantics (set_Status STATUS_PLAY go101o)).
    reflexivity.
Defined.

(** ** [Sleep] *)

Lemma sleepTick_playing (counter : Z) :
  sleepTick STATUS_PLAY counter = U64.add counter 1.
Proof. reflexivity. Qed.

Lemma sleepTick_not_playing (status counter : Z) :
  status <> STATUS_PLAY -> sleepTick status counter = counter.
Proof.
  intros H. unfold sleepTick.
  destruct (status =? STATUS_PLAY) eqn:E; [|reflexivity].
  apply Z.eqb_eq in E. contradiction.
Qed.

Lemma counterAfter_nonneg (statusAt : nat -> Z) (n : nat) :
  0 <= counterAfter statusAt n.
Proof.
  destruct n as [|n]; simpl; [lia|].
  unfold sleepTick. destruct (statusAt (S n) =? STATUS_PLAY).
  - unfold U64.add, U64.wrap. apply Z.mod_pos_bound. reflexivity.
  - clear. induction n as [|n IH]; simpl; [lia|].
    unfold sleepTick. destruct (statusAt (S n) =? STATUS_PLAY); [|exact IH].
    unfold U64.add, U64.wrap. apply Z.mod_pos_bound. reflexivity.
Qed.

(** The loop, entered with the counter its first [k] turns produce, returns
    at the first later turn at which the counter has reached [s]. *)
Lemma sleepLoop_spec (statusAt : nat -> Z) (s : Z) (fuel : nat) :
  forall k n : nat,
    sleepLoop fuel statusAt s (counterAfter statusAt k) k = Some n <->
    (k < n <= k + fuel)%nat /\
    s <= counterAfter statusAt n /\
    (forall m : nat, (k < m < n)%nat -> counterAfter statusAt m < s).
Proof.
  induction fuel as [|fuel IH]; intros k n.
  - simpl. split; [discriminate|]. intros [H _]. lia.
  - cbn [sleepLoop].
    change (sleepTick (statusAt (S k)) (counterAfter statusAt k))
      with (counterAfter statusAt (S k)).
    rewrite Z.geb_leb.
    destruct (s <=? counterAfter statusAt (S k)) eqn:E.
    + apply Z.leb_le in E. split.
      * intros H. injection H as <-.
        split; [lia|]. split; [exact E|]. intros m Hm. lia.
      * intros (Hb & Hs & Hmin).
        destruct (Nat.eq_dec n (S k)) as [->|Hne]; [reflexivity|].
        specialize (Hmin (S k)). lia.
    + apply Z.leb_gt in E. rewrite IH. split.
      * intros (Hb & Hs & Hmin).
        split; [lia|]. split; [exact Hs|].
        intros m Hm. destruct (Nat.eq_dec m (S k)) as [->|Hne]; [exact E|].
        apply Hmin. lia.
      * intros (Hb & Hs & Hmin).
        assert (n <> S k) by (intros ->; lia).
        split; [lia|]. split; [exact Hs|].
        intros m Hm. apply Hmin. lia.
Qed.

Lemma Sleep_spec (fuel : nat) (statusAt : nat -> Z) (s : Z) (n : nat) :
  Sleep fuel statusAt s = Some n <->
  (1 <= n <= fuel)%nat /\
  s <= counterAfter statusAt n /\
  (forall m : nat, (1 <= m < n)%nat -> counterAfter statusAt m < s).
Proof.
  unfold Sleep.
  change 0 with (counterAfter statusAt O) at 1.
  rewrite sleepLoop_spec. split.
  - intros (Hb & Hs & Hmin). split; [lia|]. split; [exact Hs|].
    intros m Hm. apply Hmin. lia.
  - intros (Hb & Hs & Hmin). split; [lia|]. split; [exact Hs|].
    intros m Hm. apply Hmin. lia.
Qed.

Lemma playingTicks_mono (statusAt : nat -> Z) (n : nat) :
  (playingTicks statusAt n <= playingTicks statusAt (S n))%nat.
Proof. cbn [playingTicks]. lia. Qed.

Lemma counterAfter_playingTicks (statusAt : nat -> Z) (n : nat) :
  Z.of_nat (playingTicks statusAt n) < U64.modulus ->
  counterAfter statusAt n = Z.of_nat (playingTicks statusAt n).
Proof.
  induction n as [|n IH]; intros Hlt; [reflexivity|].
  pose proof (playingTicks_mono statusAt n) as Hm.
  cbn [counterAfter playingTicks] in *. unfold sleepTick.
  destruct (statusAt (S n) =? STATUS_PLAY).
  - rewrite IH by lia. rewrite U64_add_no_carry by lia. lia.
  - rewrite IH by lia. lia.
Qed.

Lemma counterAfter_ext (statusAt statusAt' : nat -> Z) (n : nat) :
  (forall k : nat, (1 <= k <= n)%nat -> statusAt k = statusAt' k) ->
  counterAfter statusAt n = counterAfter statusAt' n.
Proof.
  induction n as [|n IH]; intros H; [reflexivity|].
  cbn [counterAfter]. rewrite (H (S n)) by lia.
  rewrite IH; [reflexivity|]. intros k Hk. apply H. lia.
Qed.

Lemma pausedAt3to6_agrees (statusAt : nat -> Z) :
  (forall k : nat, (3 <= k <= 6)%nat -> statusAt k = STATUS_PAUSE) ->
  (forall k : nat, (k < 3 \/ 6 < k)%nat -> statusAt k = STATUS_PLAY) ->
  forall k : nat, statusAt k = pausedAt3to6 k.
Proof.
  intros Hp Hq k. unfold pausedAt3to6.
  destruct (3 <=? k)%nat eqn:E1; simpl.
  - apply Nat.leb_le in E1. destruct (k <=? 6)%nat eqn:E2.
    + apply Nat.leb_le in E2. apply Hp. lia.
    + apply Nat.leb_gt in E2. apply Hq. lia.
  - apply Nat.leb_gt in E1. apply Hq. lia.
Qed.

Lemma Sleep_pausedAt3to6 (fuel : nat) :
  (14 <= fuel)%nat -> Sleep fuel pausedAt3to6 10 = Some 14%nat.
Proof.
  intros Hf. apply Sleep_spec.
  split; [lia|]. split; [vm_compute; discriminate|].
  intros m Hm.
  do 14 (destruct m as [|m]; [try lia; vm_compute; reflexivity|]).
  lia.
Qed.

(** ** C2 *)

(** C2.  At each one-second tick the counter of [Sleep] goes up by one when
    the status reads playing and stays as it is otherwise, in particular
    when it reads paused or stopped; [Sleep] returns at the first tick at
    which the counter has reached the target; as long as it does not
    overflow the counter is the number of ticks at which the status read
    playing; and with target 10 and the status paused at ticks 3 to 6 and
    playing at all others, [Sleep] returns after exactly 14 ticks. *)
Theorem pause_aware_wait :
  (forall status counter : Z,
     (status = STATUS_PLAY -> sleepTick status counter = U64.add counter 1) /\
     (status <> STATUS_PLAY -> sleepTick status counter = counter)) /\
  (forall counter : Z,
     sleepTick STATUS_PAUSE counter = counter /\
     sleepTick STATUS_STOP counter = counter) /\
  (forall (statusAt : nat -> Z) (n : nat),
     statusAt (S n) <> STATUS_PLAY ->
     counterAfter statusAt (S n) = counterAfter statusAt n) /\
  (forall (statusAt : nat -> Z) (n : nat),
     Z.of_nat (playingTicks statusAt n) < U64.modulus ->
     counterAfter statusAt n = Z.of_nat (playingTicks statusAt n)) /\
  (forall (fuel : nat) (statusAt : nat -> Z) (s : Z) (n : nat),
     Sleep fuel statusAt s = Some n <->
     (1 <= n <= fuel)%nat /\
     s <= counterAfter statusAt n /\
     (forall m : nat, (1 <= m < n)%nat -> counterAfter statusAt m < s)) /\
  (forall (fuel : nat) (statusAt : nat -> Z),
     (forall k : nat, (3 <= k <= 6)%nat -> statusAt k = STATUS_PAUSE) ->
     (forall k : nat, (k < 3 \/ 6 < k)%nat -> statusAt k = STATUS_PLAY) ->
     (14 <= fuel)%nat ->
     Sleep fuel statusAt 10 = Some 14%nat).
Proof.
  split; [|split; [|split; [|split; [|split]]]].
  - intros status counter. split.
    + intros ->. apply sleepTick_playing.
    + apply sleepTick_not_playing.
  - intros counter. split; reflexivity.
  - intros statusAt n H. cbn [counterAfter].
    apply sleepTick_not_playing. exact H.
  - apply counterAfter_playingTicks.
  - apply Sleep_spec.
  - intros fuel statusAt Hp Hq Hf.
    pose proof (pausedAt3to6_agrees statusAt Hp Hq) as Hag.
    pose proof (Sleep_pausedAt3to6 fuel Hf) as Hs.
    apply Sleep_spec in Hs. destruct Hs as (Hb & Hreach & Hmin).
    apply Sleep_spec. split; [exact Hb|]. split.
    + rewrite (counterAfter_ext statusAt pausedAt3to6); [exact Hreach|].
      intros k _. apply Hag.
    + intros m Hm.
      rewrite (counterAfter_ext statusAt pausedAt3to6); [apply Hmin; exact Hm|].
      intros k _. apply Hag.
Qed.

Lemma pause_aware_wait_witness :
  Sleep 20 pausedAt3to6 10 = Some 14%nat.
Proof.
  destruct pause_aware_wait as (_ & _ & _ & _ & _ & H).
  apply (H 20%nat pausedAt3to6).
  - intros k Hk. unfold pausedAt3to6.
    destruct Hk as [H3 H6].
    apply Nat.leb_le in H3. apply Nat.leb_le in H6.
    rewrite H3, H6. reflexivity.
  - intros k Hk. unfold pausedAt3to6.
    destruct Hk as [Hk|Hk].
    + apply Nat.leb_gt in Hk. rewrite Hk. reflexivity.
    + apply Nat.leb_gt in Hk. rewrite Hk, andb_false_r. reflexivity.
  - lia.
Defined.

(** ** C10 *)

(** C10.  [Sleep] tests its exit condition only after a one-second sleep:
    whenever it returns, at least one tick has gone by, and with target 0 it
    returns after exactly one tick whatever the status is. *)
Theorem sleep_takes_at_least_one_tick :
  (forall (fuel : nat) (statusAt : nat -> Z),
     (1 <= fuel)%nat -> Sleep fuel statusAt 0 = Some 1%nat) /\
  (forall (fuel : nat) (statusAt : nat -> Z) (s : Z) (n : nat),
     Sleep fuel statusAt s = Some n -> (1 <= n)%nat) /\
  (forall (statusAt : nat -> Z) (s : Z), Sleep 0 statusAt s = None).
Proof.
  split; [|split].
  - intros fuel statusAt Hf. apply Sleep_spec.
    split; [lia|]. split; [apply counterAfter_nonneg|].
    intros m Hm. lia.
  - intros fuel statusAt s n H. apply Sleep_spec in H. lia.
  - reflexivity.
Qed.

Lemma sleep_takes_at_least_one_tick_witness :
  Sleep 1 (fun _ => STATUS_STOP) 0 = Some 1%nat.
Proof.
  destruct sleep_takes_at_least_one_tick as (H & _ & _).
  apply (H 1%nat (fun _ => STATUS_STOP)). lia.
Defined.

(** ** Strings *)

Lemma append_assoc (a b c : string) : (a ++ b) ++ c = a ++ (b ++ c).
Proof. induction a as [|x a IH]; simpl; [reflexivity|]. rewrite IH. reflexivity. Qed.

Lemma append_empty_r (a : string) : a ++ "" = a.
Proof. induction a as [|x a IH]; simpl; [reflexivity|]. rewrite IH. reflexivity. Qed.

Lemma length_append (a b : string) :
  String.length (a ++ b) = (String.length a + String.length b)%nat.
Proof. induction a as [|x a IH]; simpl; [reflexivity|]. rewrite IH. reflexivity. Qed.

Lemma HasPrefix_iff (prefix s : string) :
  strings.HasPrefix s prefix = true <-> exists r, s = prefix ++ r.
Proof.
  revert s. induction prefix as [|c prefix IH]; intros s; simpl.
  - split; [intros _; exists s; reflexivity|reflexivity].
  - destruct s as [|d s].
    + split; [discriminate|]. intros [r Hr]. discriminate Hr.
    + rewrite andb_true_iff, Ascii.eqb_eq, IH. split.
      * intros [-> [r ->]]. exists r. reflexivity.
      * intros [r Hr]. injection Hr as -> ->. split; [reflexivity|].
        exists r. reflexivity.
Qed.

Lemma HasPrefix_append (prefix r : string) :
  strings.HasPrefix (prefix ++ r) prefix = true.
Proof. apply HasPrefix_iff. exists r. reflexivity. Qed.

Lemma drop_append (a b : string) : strings.drop (String.length a) (a ++ b) = b.
Proof. induction a as [|x a IH]; simpl; [reflexivity|exact IH]. Qed.

Lemma drop_empty (n : nat) : strings.drop n "" = "".
Proof. destruct n; reflexivity. Qed.

Section Literal.

Variable lit : string.
Hypothesis lit_nonempty : lit <> "".

Lemma HasPrefix_empty : strings.HasPrefix "" lit = false.
Proof. destruct lit; [contradiction lit_nonempty; reflexivity|reflexivity]. Qed.

Lemma noneBefore_tail (i : nat) (c : ascii) (s : string) :
  noneBefore lit (S i) (String c s) ->
  strings.HasPrefix (String c s) lit = false /\ noneBefore lit i s.
Proof.
  intros H. split.
  - apply (H O). lia.
  - intros j Hj. apply (H (S j)). lia.
Qed.

Lemma Index_None (s : string) :
  strings.Index s lit = None ->
  forall j : nat, strings.HasPrefix (strings.drop j s) lit = false.
Proof.
  induction s as [|c s IH]; intros H j.
  - rewrite drop_empty. apply HasPrefix_empty.
  - cbn [strings.Index] in H.
    destruct (strings.HasPrefix (String c s) lit) eqn:E; [discriminate|].
    destruct (strings.Index s lit) eqn:Ei; [discriminate|].
    destruct j as [|j]; [exact E|]. simpl. apply IH. reflexivity.
Qed.

Lemma Index_Some (s : string) (i : nat) :
  strings.Index s lit = Some i ->
  exists before after,
    s = before ++ lit ++ after /\ String.length before = i /\ noneBefore lit i s.
Proof.
  revert i. induction s as [|c s IH]; intros i H.
  - cbn [strings.Index] in H. rewrite HasPrefix_empty in H. discriminate.
  - cbn [strings.Index] in H.
    destruct (strings.HasPrefix (String c s) lit) eqn:E.
    + injection H as <-. apply HasPrefix_iff in E. destruct E as [r Hr].
      exists "", r. split; [exact Hr|]. split; [reflexivity|].
      intros j Hj. lia.
    + destruct (strings.Index s lit) as [i'|] eqn:Ei; [|discriminate].
      injection H as <-.
      destruct (IH i' eq_refl) as (before & after & Hs & Hl & Hn).
      exists (String c before), after. split; [simpl; rewrite Hs; reflexivity|].
      split; [simpl; rewrite Hl; reflexivity|].
      intros j Hj. destruct j as [|j]; [exact E|]. simpl. apply Hn. lia.
Qed.

Lemma Index_first (before after : string) :
  noneBefore lit (String.length before) (before ++ lit ++ after) ->
  strings.Index (before ++ lit ++ after) lit = Some (String.length before).
Proof.
  induction before as [|c before IH]; intros Hn.
  - simpl. destruct (lit ++ after) eqn:E.
    + destruct lit; [contradiction lit_nonempty; reflexivity|discriminate E].
    + cbn [strings.Index]. rewrite <- E, HasPrefix_append. reflexivity.
  - change (String c before ++ lit ++ after)
      with (String c (before ++ lit ++ after)) in *.
    change (String.length (String c before))
      with (S (String.length before)) in *.
    apply noneBefore_tail in Hn. destruct Hn as [Hh Hn].
    cbn [strings.Index]. rewrite Hh, (IH Hn). reflexivity.
Qed.

Lemma Replace1_None (s new : string) :
  strings.Index s lit = None -> strings.Replace1 s lit new = s.
Proof.
  induction s as [|c s IH]; intros H.
  - cbn [strings.Replace1]. rewrite HasPrefix_empty. reflexivity.
  - cbn [strings.Index] in H. cbn [strings.Replace1].
    destruct (strings.HasPrefix (String c s) lit); [discriminate|].
    destruct (strings.Index s lit) eqn:Ei; [discriminate|].
    rewrite IH; reflexivity.
Qed.

Lemma Replace1_first (before after new : string) :
  noneBefore lit (String.length before) (before ++ lit ++ after) ->
  strings.Replace1 (before ++ lit ++ after) lit new = before ++ new ++ after.
Proof.
  induction before as [|c before IH]; intros Hn.
  - simpl. destruct (lit ++ after) eqn:E.
    + destruct lit; [contradiction lit_nonempty; reflexivity|discriminate E].
    + cbn [strings.Replace1]. rewrite <- E, HasPrefix_append, drop_append.
      reflexivity.
  - change (String c before ++ lit ++ after)
      with (String c (before ++ lit ++ after)) in *.
    change (String.length (String c before))
      with (S (String.length before)) in *.
    apply noneBefore_tail in Hn. destruct Hn as [Hh Hn].
    cbn [strings.Replace1]. rewrite Hh, (IH Hn). reflexivity.
Qed.

Lemma countMatches_skip (skipped rest : string) :
  regexp.countMatches (String.length skipped) (skipped ++ rest) lit =
  regexp.countMatches O rest lit.
Proof.
  induction skipped as [|c skipped IH]; [reflexivity|]. simpl. exact IH.
Qed.

Lemma lit_cons : exists c l, lit = String c l.
Proof.
  destruct lit as [|c l] eqn:E; [contradiction lit_nonempty; reflexivity|].
  exists c, l. reflexivity.
Qed.

Lemma countMatches_here (after : string) :
  regexp.countMatches O (lit ++ after) lit =
  S (regexp.countMatches O after lit).
Proof.
  destruct lit_cons as (c & l & E).
  assert (Hs : lit ++ after = String c (l ++ after))
    by (rewrite E; reflexivity).
  rewrite Hs. cbn [regexp.countMatches].
  rewrite <- Hs, HasPrefix_append.
  replace (String.length lit - 1)%nat with (String.length l)
    by (rewrite E; simpl; lia).
  rewrite countMatches_skip. reflexivity.
Qed.

Lemma countMatches_miss (before rest : string) :
  noneBefore lit (String.length before) (before ++ rest) ->
  regexp.countMatches O (before ++ rest) lit = regexp.countMatches O rest lit.
Proof.
  induction before as [|c before IH]; intros Hn; [reflexivity|].
  change (String c before ++ rest) with (String c (before ++ rest)) in *.
  change (String.length (String c before))
    with (S (String.length before)) in *.
  apply noneBefore_tail in Hn. destruct Hn as [Hh Hn].
  cbn [regexp.countMatches]. rewrite Hh. apply IH. exact Hn.
Qed.

Lemma countMatches_zero (s : string) :
  regexp.countMatches O s lit = O ->
  forall j : nat, strings.HasPrefix (strings.drop j s) lit = false.
Proof.
  induction s as [|c s IH]; intros H j.
  - rewrite drop_empty. apply HasPrefix_empty.
  - cbn [regexp.countMatches] in H.
    destruct (strings.HasPrefix (String c s) lit) eqn:E; [discriminate|].
    destruct j as [|j]; [exact E|]. simpl. apply IH. exact H.
Qed.

Lemma countMatches_absent (s : string) :
  strings.Index s lit = None -> regexp.countMatches O s lit = O.
Proof.
  induction s as [|c s IH]; intros H; [reflexivity|].
  cbn [strings.Index] in H. cbn [regexp.countMatches].
  destruct (strings.HasPrefix (String c s) lit); [discriminate|].
  destruct (strings.Index s lit); [discriminate|]. apply IH. reflexivity.
Qed.

(** The scan finds the first occurrence and goes on behind it. *)
Lemma countMatches_Index (s : string) :
  regexp.countMatches O s lit =
  match strings.Index s lit with
  | None => O
  | Some i =>
      S (regexp.countMatches O (strings.drop (i + String.length lit) s) lit)
  end.
Proof.
  destruct (strings.Index s lit) as [i|] eqn:E.
  - destruct (Index_Some s i E) as (before & after & -> & <- & Hn).
    rewrite (countMatches_miss before (lit ++ after) Hn).
    rewrite countMatches_here.
    rewrite <- length_append, <- append_assoc, drop_append. reflexivity.
  - apply countMatches_absent. exact E.
Qed.

Lemma countMatches_present (before after : string) :
  (1 <= regexp.countMatches O (before ++ lit ++ after) lit)%nat.
Proof.
  destruct (regexp.countMatches O (before ++ lit ++ after) lit) eqn:E; [|lia].
  pose proof (countMatches_zero _ E (String.length before)) as H.
  rewrite drop_append, HasPrefix_append in H. discriminate H.
Qed.

End Literal.

(** ** The scheme expression *)

Lemma schemeAt_marker (c : ascii) (after : string) :
  regexp.schemeAt ("http:" ++ String c after) = negb (Ascii.eqb c regexp.LF).
Proof. reflexivity. Qed.

Lemma schemeAt_iff (s : string) :
  regexp.schemeAt s = true <->
  exists c after, s = "http:" ++ String c after /\ c <> regexp.LF.
Proof.
  split.
  - unfold regexp.schemeAt. intros H. apply andb_true_iff in H.
    destruct H as [Hp Hc]. apply HasPrefix_iff in Hp. destruct Hp as [r ->].
    change 5%nat with (String.length "http:") in Hc.
    rewrite drop_append in Hc. destruct r as [|c after]; [discriminate|].
    exists c, after. split; [reflexivity|].
    intros ->. rewrite Ascii.eqb_refl in Hc. discriminate.
  - intros (c & after & -> & Hc). rewrite schemeAt_marker.
    apply negb_true_iff. apply Ascii.eqb_neq. exact Hc.
Qed.

Lemma FindScheme_None_iff (s : string) :
  regexp.FindScheme s = None <->
  forall before c after,
    s = before ++ "http:" ++ String c after -> c = regexp.LF.
Proof.
  induction s as [|x s IH].
  - split; [|reflexivity]. intros _ before c after H.
    apply (f_equal String.length) in H. rewrite length_append in H.
    simpl in H. lia.
  - cbn [regexp.FindScheme].
    destruct (regexp.schemeAt (String x s)) eqn:E.
    + split; [discriminate|]. intros H. exfalso.
      apply schemeAt_iff in E. destruct E as (c & after & Hs & Hc).
      apply Hc. apply (H "" c after). exact Hs.
    + split.
      * intros H before c after Hs.
        destruct (regexp.FindScheme s) eqn:Ef; [discriminate|].
        destruct before as [|y before].
        -- simpl in Hs. rewrite Hs in E.
           change (String "h" (String "t" (String "t" (String "p"
                    (String ":" (String c after))))))
             with ("http:" ++ String c after) in E.
           rewrite schemeAt_marker in E. apply negb_false_iff in E.
           apply Ascii.eqb_eq in E. exact E.
        -- simpl in Hs. injection Hs as _ Hs.
           apply (proj1 IH eq_refl before c after). exact Hs.
      * intros H.
        assert (Hs : regexp.FindScheme s = None).
        { apply IH. intros before c after Hs.
          apply (H (String x before) c after). simpl. rewrite Hs.
          reflexivity. }
        rewrite Hs. reflexivity.
Qed.

Lemma FindScheme_Some_iff (s : string) :
  regexp.FindScheme s <> None <->
  exists before c after,
    s = before ++ "http:" ++ String c after /\ c <> regexp.LF.
Proof.
  split.
  - induction s as [|x s IH]; intros H.
    + contradiction H. reflexivity.
    + cbn [regexp.FindScheme] in H.
      destruct (regexp.schemeAt (String x s)) eqn:E.
      * apply schemeAt_iff in E. destruct E as (c & after & Hs & Hc).
        exists "", c, after. split; assumption.
      * destruct (regexp.FindScheme s) eqn:Ef;
          [|contradiction H; reflexivity].
        destruct IH as (before & c & after & Hs & Hc); [discriminate|].
        exists (String x before), c, after. split; [|exact Hc].
        rewrite Hs. reflexivity.
  - intros (before & c & after & Hs & Hc) Hn.
    apply Hc. apply (proj1 (FindScheme_None_iff s) Hn before c after Hs).
Qed.

Lemma FindScheme_append (s rest : string) :
  regexp.FindScheme s <> None -> regexp.FindScheme (s ++ rest) <> None.
Proof.
  intros H. apply FindScheme_Some_iff in H.
  destruct H as (before & c & after & -> & Hc).
  apply FindScheme_Some_iff. exists before, c, (after ++ rest).
  split; [|exact Hc]. rewrite append_assoc. reflexivity.
Qed.

Lemma prefixURL_cases (filename : string) :
  (regexp.FindScheme filename = None /\
   prefixURL filename = "http://101.ru" ++ filename) \/
  (regexp.FindScheme filename <> None /\ prefixURL filename = filename).
Proof.
  unfold prefixURL.
  destruct (regexp.FindScheme filename); [right|left]; split;
    try reflexivity; discriminate.
Qed.

Lemma prefixURL_has_scheme (filename : string) :
  regexp.FindScheme (prefixURL filename) <> None.
Proof.
  destruct (prefixURL_cases filename) as [[_ ->]|[H ->]]; [|exact H].
  discriminate.
Qed.

Lemma FetchChannelInfo_PlayURL (code : Z) (trackInfo : TrackInfo)
    (a : TrackInfo__Result__About__Audio)
    (rest : list TrackInfo__Result__About__Audio) (g : go101) :
  About_Audio (About (Result trackInfo)) = a :: rest ->
  PlayURL (CurrentTrack (stateOf (FetchChannelInfo (answer code trackInfo) g))) =
  collapseURL (prefixURL (Audio_Filename a)).
Proof.
  intros Ha. unfold answer.
  rewrite (FetchChannelInfo_success code trackInfo a rest g Ha). reflexivity.
Qed.

(** ** C5 *)

(** C5, as stated, fails in both directions: a filename without a leading
    marker that carries [http:b] further in is not prefixed, and a filename
    that begins with [http:] followed by a line feed is prefixed. *)
Lemma prefixing_not_decided_by_leading_marker :
  (leadingScheme markerInside = false /\
   prefixURL markerInside = markerInside) /\
  (leadingScheme markerThenLF = true /\
   prefixURL markerThenLF = "http://101.ru" ++ markerThenLF).
Proof. repeat split. Qed.

(** C5, amended.  The origin [http://101.ru] is put in front of the filename
    exactly when the scheme expression finds no match in it, that is, when
    nowhere in the filename (not only at its start) [http:] is followed by a
    character other than a line feed; otherwise the filename goes on to the
    collapsing step as it is.  In particular a filename that begins with
    [http:] and a character other than a line feed is not prefixed. *)
Theorem prefix_iff_no_marker_anywhere (filename : string) :
  (prefixURL filename = "http://101.ru" ++ filename \/
   prefixURL filename = filename) /\
  (prefixURL filename = "http://101.ru" ++ filename <->
   regexp.FindScheme filename = None) /\
  (regexp.FindScheme filename = None <->
   forall before c after,
     filename = before ++ "http:" ++ String c after -> c = regexp.LF) /\
  (forall c rest,
     filename = "http:" ++ String c rest -> c <> regexp.LF ->
     prefixURL filename = filename).
Proof.
  split; [|split; [|split]].
  - destruct (prefixURL_cases filename) as [[_ H]|[_ H]]; auto.
  - destruct (prefixURL_cases filename) as [[Hn H]|[Hn H]].
    + split; auto.
    + split; [|intros C; contradiction].
      rewrite H. intros C. apply (f_equal String.length) in C.
      rewrite length_append in C. simpl in C. lia.
  - apply FindScheme_None_iff.
  - intros c rest Hf Hc.
    destruct (prefixURL_cases filename) as [[Hn _]|[_ H]]; [|exact H].
    exfalso. apply Hc.
    apply (proj1 (FindScheme_None_iff filename) Hn "" c rest). exact Hf.
Qed.

Lemma prefix_iff_no_marker_anywhere_witness :
  prefixURL "http://cdn1.101.ru/a.mp3" = "http://cdn1.101.ru/a.mp3".
Proof.
  destruct (prefix_iff_no_marker_anywhere "http://cdn1.101.ru/a.mp3")
    as (_ & _ & _ & H).
  apply (H "/"%char "/cdn1.101.ru/a.mp3").
  - reflexivity.
  - discriminate.
Defined.

(** ** The files expression and the collapse *)

Lemma filesFragment_nonempty : regexp.filesFragment <> "".
Proof. discriminate. Qed.

Lemma collapseURL_unchanged (url : string) :
  regexp.FindAllFiles url <> 2%nat -> collapseURL url = url.
Proof.
  intros H. unfold collapseURL.
  destruct (Nat.eqb (regexp.FindAllFiles url) 2) eqn:E; [|reflexivity].
  apply Nat.eqb_eq in E. contradiction.
Qed.

Lemma collapseURL_two (url : string) :
  regexp.FindAllFiles url = 2%nat ->
  exists before after,
    url = before ++ regexp.filesFragment ++ after /\
    noneBefore regexp.filesFragment (String.length before) url /\
    collapseURL url = before ++ after /\
    regexp.FindAllFiles after = 1%nat.
Proof.
  intros H. unfold collapseURL. rewrite H. cbn [Nat.eqb].
  change "/vardata/modules/musicdb/files/" with regexp.filesFragment.
  unfold regexp.FindAllFiles in *.
  destruct (strings.Index url regexp.filesFragment) as [i|] eqn:E.
  - destruct (Index_Some _ filesFragment_nonempty url i E)
      as (before & after & Hu & Hl & Hn).
    exists before, after. subst i.
    split; [exact Hu|]. split; [exact Hn|]. rewrite Hu in Hn |- *.
    split.
    + rewrite (Replace1_first _ filesFragment_nonempty before after "" Hn).
      reflexivity.
    + rewrite Hu in H.
      rewrite (countMatches_miss _ before _ Hn) in H.
      rewrite (countMatches_here _ filesFragment_nonempty) in H.
      lia.
  - rewrite (countMatches_absent _ url E) in H. discriminate H.
Qed.

Lemma collapseURL_length (url : string) :
  regexp.FindAllFiles url = 2%nat ->
  (String.length (collapseURL url) + 31 = String.length url)%nat.
Proof.
  intros H. destruct (collapseURL_two url H) as (before & after & Hu & _ & -> & _).
  rewrite Hu. rewrite !length_append. simpl. lia.
Qed.

(** ** C6 *)

(** C6, as stated, fails: in this URL the fragment occurs exactly twice,
    counted with or without overlaps, and in the result of the collapsing
    step it still occurs twice, because deleting the first occurrence joins
    the text on both sides of it into another one. *)
Lemma collapse_can_leave_two :
  regexp.FindAllFiles (prefixURL splicing) = 2%nat /\
  strings.occurrences (prefixURL splicing) regexp.filesFragment = 2%nat /\
  regexp.FindAllFiles (collapseURL (prefixURL splicing)) = 2%nat /\
  strings.occurrences (collapseURL (prefixURL splicing)) regexp.filesFragment
  = 2%nat /\
  collapseURL (prefixURL splicing) =
  "http://101.ru/vardata/modules/musicdb/files//vardata/modules/musicdb/files/x.mp3".
Proof. vm_compute. repeat split. Qed.

(** C6, amended.  When the expression does not find the fragment exactly
    twice (zero times, once, three times or more; matches are counted from
    the left without overlap) the URL is left as it is.  When it finds it
    exactly twice, the first occurrence is deleted and nothing else: the
    text after it, which holds exactly one match, is kept, so the result
    still contains the fragment; and it holds exactly one match whenever no
    occurrence starts in the part before the cut. *)
Theorem collapse_deletes_first_of_two (url : string) :
  (regexp.FindAllFiles url <> 2%nat -> collapseURL url = url) /\
  (regexp.FindAllFiles url = 2%nat ->
   exists before after,
     url = before ++ regexp.filesFragment ++ after /\
     strings.Index url regexp.filesFragment = Some (String.length before) /\
     collapseURL url = before ++ after /\
     regexp.FindAllFiles after = 1%nat /\
     (1 <= regexp.FindAllFiles (collapseURL url))%nat /\
     (noneBefore regexp.filesFragment (String.length before) (before ++ after) ->
      regexp.FindAllFiles (collapseURL url) = 1%nat)).
Proof.
  split; [apply collapseURL_unchanged|].
  intros H. destruct (collapseURL_two url H) as (before & after & Hu & Hn & Hc & Ha).
  exists before, after.
  split; [exact Hu|]. split.
  { rewrite Hu in Hn |- *.
    apply (Index_first _ filesFragment_nonempty). exact Hn. }
  split; [exact Hc|]. split; [exact Ha|]. rewrite Hc. split.
  - unfold regexp.FindAllFiles in Ha.
    rewrite (countMatches_Index _ filesFragment_nonempty) in Ha.
    destruct (strings.Index after regexp.filesFragment) as [i|] eqn:E;
      [|discriminate Ha].
    destruct (Index_Some _ filesFragment_nonempty after i E)
      as (mid & tail & -> & _ & _).
    rewrite <- append_assoc.
    apply (countMatches_present _ filesFragment_nonempty).
  - intros Hnone. unfold regexp.FindAllFiles in *.
    rewrite (countMatches_miss _ before after Hnone). exact Ha.
Qed.

Lemma collapse_deletes_first_of_two_witness :
  collapseURL "/vardata/modules/musicdb/files/a.mp3" =
  "/vardata/modules/musicdb/files/a.mp3" /\
  exists before after,
    doubled = before ++ regexp.filesFragment ++ after /\
    strings.Index doubled regexp.filesFragment = Some (String.length before) /\
    collapseURL doubled = before ++ after /\
    regexp.FindAllFiles after = 1%nat /\
    (1 <= regexp.FindAllFiles (collapseURL doubled))%nat /\
    (noneBefore regexp.filesFragment (String.length before) (before ++ after) ->
     regexp.FindAllFiles (collapseURL doubled) = 1%nat).
Proof.
  split.
  - apply (collapse_deletes_first_of_two "/vardata/modules/musicdb/files/a.mp3").
    vm_compute. discriminate.
  - apply (collapse_deletes_first_of_two doubled).
    vm_compute. reflexivity.
Defined.

Example collapse_doubled :
  collapseURL doubled =
  "http://cdn1.101.ru/vardata/modules/musicdb/files/a.mp3" /\
  regexp.FindAllFiles (collapseURL doubled) = 1%nat.
Proof. vm_compute. split; reflexivity. Qed.

(** ** C7 *)

Lemma normalizeURL_fixed_iff (url : string) :
  normalizeURL url = url <->
  regexp.FindScheme url <> None /\ regexp.FindAllFiles url <> 2%nat.
Proof.
  unfold normalizeURL.
  destruct (prefixURL_cases url) as [[Hn Hp]|[Hn Hp]]; rewrite Hp.
  - split; [|intros [C _]; contradiction].
    intros H. exfalso. apply (f_equal String.length) in H.
    destruct (Nat.eq_dec (regexp.FindAllFiles ("http://101.ru" ++ url)) 2)
      as [E|E].
    + pose proof (collapseURL_length _ E) as Hl.
      rewrite length_append in Hl.
      change (String.length "http://101.ru") with 13%nat in Hl. lia.
    + rewrite (collapseURL_unchanged _ E), length_append in H.
      change (String.length "http://101.ru") with 13%nat in H. lia.
  - split.
    + intros H. split; [exact Hn|]. intros E.
      pose proof (collapseURL_length _ E) as Hl. rewrite H in Hl. lia.
    + intros [_ E]. apply collapseURL_unchanged. exact E.
Qed.

(** C7, as stated, fails.  For the first filename the collapsing step
    leaves two fragments, and a second pass deletes one more; for the second
    the collapsing step removes the character that made the scheme
    expression match, and a second pass puts the origin in front. *)
Lemma normalization_not_idempotent :
  normalizeURL (normalizeURL splicing) <> normalizeURL splicing /\
  normalizeURL (normalizeURL markerLost) <> normalizeURL markerLost.
Proof.
  split; intros H; apply (f_equal String.length) in H;
    vm_compute in H; discriminate H.
Qed.

Lemma first_of_two_decomposed (url before after : string) :
  regexp.FindAllFiles url = 2%nat ->
  url = before ++ regexp.filesFragment ++ after ->
  noneBefore regexp.filesFragment (String.length before) url ->
  collapseURL url = before ++ after /\ regexp.FindAllFiles after = 1%nat.
Proof.
  intros H -> Hn. split.
  - unfold collapseURL. rewrite H. cbn [Nat.eqb].
    change "/vardata/modules/musicdb/files/" with regexp.filesFragment.
    rewrite (Replace1_first _ filesFragment_nonempty before after "" Hn).
    reflexivity.
  - unfold regexp.FindAllFiles in *.
    rewrite (countMatches_miss _ before _ Hn) in H.
    rewrite (countMatches_here _ filesFragment_nonempty) in H. lia.
Qed.

(** In a prefixed relative filename the fragment cannot start within the
    first six bytes, so deleting it leaves the [http:/] of the origin in
    place. *)
Lemma relative_cut_keeps_scheme (filename before after : string) :
  "http://101.ru" ++ filename = before ++ regexp.filesFragment ++ after ->
  regexp.FindScheme (before ++ after) <> None.
Proof.
  intros H.
  assert (Hs : regexp.schemeAt (before ++ after) = true).
  { do 6 (destruct before as [|? before];
          [simpl in H; discriminate H|simpl in H; injection H as <- H]).
    reflexivity. }
  destruct (before ++ after) as [|c r] eqn:E; [discriminate Hs|].
  cbn [regexp.FindScheme]. rewrite Hs. discriminate.
Qed.

(** C7, amended.  Normalising a second time changes nothing for every
    filename whose prefixed URL does not hold exactly two matches of the
    fragment.  When it holds exactly two, the first pass deletes the first
    occurrence, and a second pass changes nothing exactly when the URL left
    over still matches the scheme expression and does not hold two matches
    again; that is so whenever no occurrence starts in the part before the
    cut and the scheme match lies in that part or comes from the origin just
    put in front, as for the doubled URL of the known upstream bug.  Only
    the two kinds of filename of the counterexample are excepted: those in
    which the deletion joins a new occurrence together and those in which it
    removes the character that made the scheme expression match. *)
Theorem normalization_idempotent_iff (filename : string) :
  (regexp.FindAllFiles (prefixURL filename) <> 2%nat ->
   normalizeURL filename = prefixURL filename /\
   normalizeURL (normalizeURL filename) = normalizeURL filename) /\
  (regexp.FindAllFiles (prefixURL filename) = 2%nat ->
   (exists before after,
      prefixURL filename = before ++ regexp.filesFragment ++ after /\
      noneBefore regexp.filesFragment (String.length before)
        (prefixURL filename)) /\
   (forall before after,
      prefixURL filename = before ++ regexp.filesFragment ++ after ->
      noneBefore regexp.filesFragment (String.length before)
        (prefixURL filename) ->
      normalizeURL filename = before ++ after /\
      (normalizeURL (normalizeURL filename) = normalizeURL filename <->
       regexp.FindScheme (before ++ after) <> None /\
       regexp.FindAllFiles (before ++ after) <> 2%nat) /\
      (noneBefore regexp.filesFragment (String.length before)
         (before ++ after) ->
       regexp.FindScheme before <> None \/ regexp.FindScheme filename = None ->
       regexp.FindAllFiles (normalizeURL filename) = 1%nat /\
       normalizeURL (normalizeURL filename) = normalizeURL filename))).
Proof.
  split.
  - intros H.
    assert (Hn : normalizeURL filename = prefixURL filename)
      by (apply collapseURL_unchanged; exact H).
    split; [exact Hn|]. apply normalizeURL_fixed_iff. rewrite Hn.
    split; [apply prefixURL_has_scheme|exact H].
  - intros H. split.
    + destruct (collapseURL_two _ H) as (before & after & Hu & Hn & _).
      exists before, after. split; assumption.
    + intros before after Hu Hn.
      destruct (first_of_two_decomposed _ before after H Hu Hn) as [Hc Ha].
      assert (Hnorm : normalizeURL filename = before ++ after) by exact Hc.
      split; [exact Hnorm|]. rewrite Hnorm.
      split; [apply normalizeURL_fixed_iff|].
      intros Hclean Hscheme.
      assert (Hone : regexp.FindAllFiles (before ++ after) = 1%nat).
      { unfold regexp.FindAllFiles in *.
        rewrite (countMatches_miss _ before after Hclean). exact Ha. }
      split; [exact Hone|].
      apply normalizeURL_fixed_iff. split; [|rewrite Hone; discriminate].
      destruct Hscheme as [Hb|Hrel].
      * apply FindScheme_append. exact Hb.
      * destruct (prefixURL_cases filename) as [[_ Hp]|[Hsome _]];
          [|contradiction].
        rewrite Hp in Hu.
        apply (relative_cut_keeps_scheme filename before after Hu).
Qed.

Lemma normalization_idempotent_iff_witness :
  (normalizeURL "/a.mp3" = prefixURL "/a.mp3" /\
   normalizeURL (normalizeURL "/a.mp3") = normalizeURL "/a.mp3") /\
  (regexp.FindAllFiles (normalizeURL doubled) = 1%nat /\
   normalizeURL (normalizeURL doubled) = normalizeURL doubled).
Proof.
  split.
  - apply (normalization_idempotent_iff "/a.mp3").
    vm_compute. discriminate.
  - destruct (normalization_idempotent_iff doubled) as [_ H].
    destruct H as [_ H]; [vm_compute; reflexivity|].
    destruct (H "http://cdn1.101.ru"
                ("/vardata/modules/musicdb/files/a.mp3")) as (_ & _ & Hs).
    + reflexivity.
    + intros j Hj. do 18 (destruct j as [|j]; [reflexivity|]).
      simpl in Hj. lia.
    + apply Hs.
      * intros j Hj. do 18 (destruct j as [|j]; [reflexivity|]).
        simpl in Hj. lia.
      * left. discriminate.
Defined.

Example normalize_doubled_twice :
  normalizeURL (normalizeURL doubled) = normalizeURL doubled /\
  normalizeURL doubled = "http://cdn1.101.ru/vardata/modules/musicdb/files/a.mp3".
Proof. vm_compute. split; reflexivity. Qed.

(* ===================================================================== *)
(** * Further properties *)
(* ===================================================================== *)

(** ** [Block.Do] *)

(** X1.  When [Catch] is set and neither it nor [Finally] can panic, no
    panic of [Try] leaves [Do]: the call returns normally, whatever [Try]
    does. *)
Theorem Do_contains_panics (this : Block) (handler : Exception -> M unit)
    (g : go101) :
  Catch this = Some handler ->
  (forall e g0, exists g1, handler e g0 = Returned tt g1) ->
  (forall finally g0,
     Finally this = Some finally -> exists g1, finally g0 = Returned tt g1) ->
  exists g', Do this g = Returned tt g'.
Proof.
  intros Hc Hh Hf. unfold Do. rewrite Hc.
  assert (Hrec : exists g2,
            match Try this g with
            | Returned _ g1 => Returned tt g1
            | Panicked e g1 => handler e g1
            end = Returned tt g2).
  { destruct (Try this g) as [u g1|e g1].
    - exists g1. reflexivity.
    - apply Hh. }
  destruct Hrec as [g2 ->].
  destruct (Finally this) as [finally|] eqn:Ef.
  - apply (Hf finally g2 eq_refl).
  - exists g2. reflexivity.
Qed.

Lemma Do_contains_panics_witness :
  exists g', FetchChannelInfo GetError go101o = Returned tt g'.
Proof.
  apply (Do_contains_panics
           {| Try := FetchChannelInfo_Try GetError;
              Catch := Some FetchChannelInfo_Catch;
              Finally := Some FetchChannelInfo_Finally |}
           FetchChannelInfo_Catch go101o).
  - reflexivity.
  - intros e g0. eexists. reflexivity.
  - intros finally g0 H. injection H as <-. eexists. reflexivity.
Defined.

(** With a [nil] [Catch] a panic of [Try] is not recovered: [Finally]
    still runs, on the state [Try] left behind, and then the same panic
    leaves [Do]. *)
Lemma Do_without_Catch_propagates (this : Block) (finally : M unit)
    (g g1 g2 : go101) (e : Exception) :
  Catch this = None ->
  Finally this = Some finally ->
  Try this g = Panicked e g1 ->
  finally g1 = Returned tt g2 ->
  Do this g = Panicked e g2.
Proof.
  intros Hc Hf Ht Hfin. unfold Do. rewrite Hc, Hf, Ht, Hfin. reflexivity.
Qed.

Lemma Do_without_Catch_propagates_witness :
  Do blockWithoutCatch go101o =
  Panicked ErrGet (set_Status STATUS_STOP (set_NextFetch 1 go101o)).
Proof.
  apply (Do_without_Catch_propagates blockWithoutCatch
           (assign (set_Status STATUS_STOP)) go101o
           (set_NextFetch 1 go101o)); reflexivity.
Defined.

(** ** [FetchChannelInfo], whatever the answer *)

Lemma FetchChannelInfo_shape (net : GetResult) (g : go101) :
  exists track next,
    FetchChannelInfo net g =
    Returned tt (set_NextFetch next (set_CurrentTrack track g)) /\
    2 <= next <= 1797 /\
    (fetchFails net -> track = CurrentTrack g /\ next = 5) /\
    (forall g0,
       FetchChannelInfo net g0 =
       Returned tt (set_NextFetch next
                      (set_CurrentTrack
                         (match freshTrackUid net with
                          | Some _ => track
                          | None => CurrentTrack g0
                          end)
                         g0))).
Proof.
  destruct (freshTrackUid net) as [t|] eqn:E.
  - pose proof E as E'. apply freshTrackUid_Some in E'.
    destruct E' as (code & trackInfo & a & rest & -> & Ha & _).
    exists (fetchedTrack trackInfo a),
           (nextFetchPeriod (FinishSong (Stat (Result trackInfo)))
                            (ServerTime (Stat (Result trackInfo)))).
    split; [apply (FetchChannelInfo_success code trackInfo a rest g Ha)|].
    split; [apply nextFetchPeriod_bounds|].
    split.
    + intros Hf. simpl in Hf. rewrite Hf in Ha. discriminate Ha.
    + intros g0. apply (FetchChannelInfo_success code trackInfo a rest g0 Ha).
  - apply freshTrackUid_None in E.
    exists (CurrentTrack g), 5.
    split.
    { rewrite (FetchChannelInfo_failure net g E). destruct g; reflexivity. }
    split; [lia|]. split; [intros _; split; reflexivity|].
    intros g0. rewrite (FetchChannelInfo_failure net g0 E).
    destruct g0; reflexivity.
Qed.

(** X2.  [FetchChannelInfo] never panics, whatever the network and the
    decoder answer, and it writes [CurrentTrack] and [NextFetch] only: the
    identifier of the track last started, the playback status and the chosen
    group and channel are as before. *)
Theorem FetchChannelInfo_total_and_frame (net : GetResult) (g : go101) :
  exists g',
    FetchChannelInfo net g = Returned tt g' /\
    TrackUid g' = TrackUid g /\
    Status g' = Status g /\
    CurrentChannel g' = CurrentChannel g /\
    CurrentGroup g' = CurrentGroup g.
Proof.
  destruct (FetchChannelInfo_shape net g) as (track & next & H & _).
  rewrite H. eexists. split; [reflexivity|]. repeat split.
Qed.

Lemma FetchChannelInfo_NextFetch_range (net : GetResult) (g : go101) :
  2 <= NextFetch (stateOf (FetchChannelInfo net g)) <= 1797.
Proof.
  destruct (FetchChannelInfo_shape net g) as (track & next & H & Hb & _).
  rewrite H. exact Hb.
Qed.

(** X3.  After every call of [FetchChannelInfo], successful or not and with
    whatever timestamps, [NextFetch] lies between 2 and 1797 seconds, and so
    within the range of an unsigned 64-bit integer. *)
Theorem NextFetch_always_bounded (net : GetResult) (g : go101) :
  2 <= NextFetch (stateOf (FetchChannelInfo net g)) <= 1797 /\
  U64.inRange (NextFetch (stateOf (FetchChannelInfo net g))).
Proof.
  pose proof (FetchChannelInfo_NextFetch_range net g) as H.
  split; [exact H|]. unfold U64.inRange. rewrite U64_modulus_eq. lia.
Qed.

(** X4.  Fetching the same answer a second time changes nothing: the second
    call leaves the object exactly as the first one did. *)
Theorem FetchChannelInfo_idempotent (net : GetResult) (g : go101) :
  FetchChannelInfo net (stateOf (FetchChannelInfo net g)) =
  FetchChannelInfo net g.
Proof.
  destruct (FetchChannelInfo_shape net g) as (track & next & H & _ & _ & Hall).
  rewrite H. cbn [stateOf]. rewrite Hall.
  destruct (freshTrackUid net); reflexivity.
Qed.

(** X5.  A successful fetch replaces the retained track as a whole and does
    not look at the status code: the track and the period that come out are
    the same for every earlier state of the object and every status code. *)
Theorem successful_fetch_overwrites_track
    (code code' : Z) (trackInfo : TrackInfo)
    (a : TrackInfo__Result__About__Audio)
    (rest : list TrackInfo__Result__About__Audio) (g g' : go101) :
  About_Audio (About (Result trackInfo)) = a :: rest ->
  CurrentTrack (stateOf (FetchChannelInfo (answer code trackInfo) g)) =
  CurrentTrack (stateOf (FetchChannelInfo (answer code' trackInfo) g')) /\
  NextFetch (stateOf (FetchChannelInfo (answer code trackInfo) g)) =
  NextFetch (stateOf (FetchChannelInfo (answer code' trackInfo) g')) /\
  Track_TrackUid
    (CurrentTrack (stateOf (FetchChannelInfo (answer code trackInfo) g))) =
  Audio_TrackUid a.
Proof.
  intros Ha. unfold answer.
  rewrite (FetchChannelInfo_success code trackInfo a rest g Ha).
  rewrite (FetchChannelInfo_success code' trackInfo a rest g' Ha).
  repeat split.
Qed.

Lemma successful_fetch_overwrites_track_witness :
  CurrentTrack
    (stateOf (FetchChannelInfo (answer 200 (sampleTrackInfo 7 "/a.mp3" 1000 900))
                               go101o)) =
  CurrentTrack (stateOf (FetchChannelInfo answer500 (set_Status STATUS_PAUSE go101o))).
Proof.
  apply (successful_fetch_overwrites_track 200 500
           (sampleTrackInfo 7 "/a.mp3" 1000 900)
           {| Audio_TrackUid := 7; Audio_Filename := "/a.mp3" |} []
           go101o (set_Status STATUS_PAUSE go101o)).
  reflexivity.
Defined.

(** ** Playback *)

Lemma Play_cases (g : go101) :
  (Status g = STATUS_PAUSE /\
   Play g = ([PlayProcess (PlayURL (CurrentTrack g)); MuteProcess],
             set_Status STATUS_PAUSE
               (set_TrackUid (Track_TrackUid (CurrentTrack g)) g))) \/
  (Status g <> STATUS_PAUSE /\
   Play g = ([PlayProcess (PlayURL (CurrentTrack g))],
             set_Status STATUS_PLAY
               (set_TrackUid (Track_TrackUid (CurrentTrack g)) g))).
Proof.
  unfold Play, andThen, emit, update, Pause. cbn [Status set_TrackUid].
  destruct (Status g =? STATUS_PAUSE) eqn:E.
  - left. apply Z.eqb_eq in E. split; [exact E|reflexivity].
  - right. apply Z.eqb_neq in E. split; [exact E|reflexivity].
Qed.

(** X6.  [Play] hands the retained URL to the backend and records the
    retained track as the one started.  Called while the status is paused it
    mutes the new stream at once and the status stays paused; called in any
    other status it leaves the status playing. *)
Theorem Play_keeps_pause (g : go101) :
  TrackUid (snd (Play g)) = Track_TrackUid (CurrentTrack g) /\
  CurrentTrack (snd (Play g)) = CurrentTrack g /\
  (Status g = STATUS_PAUSE ->
   fst (Play g) = [PlayProcess (PlayURL (CurrentTrack g)); MuteProcess] /\
   Status (snd (Play g)) = STATUS_PAUSE) /\
  (Status g <> STATUS_PAUSE ->
   fst (Play g) = [PlayProcess (PlayURL (CurrentTrack g))] /\
   Status (snd (Play g)) = STATUS_PLAY).
Proof.
  destruct (Play_cases g) as [[Hs ->]|[Hs ->]].
  - split; [reflexivity|]. split; [reflexivity|]. split.
    + intros _. split; reflexivity.
    + intros Hn. contradiction.
  - split; [reflexivity|]. split; [reflexivity|]. split.
    + intros Hn. contradiction.
    + intros _. split; reflexivity.
Qed.

Lemma Play_keeps_pause_witness :
  Status (snd (Play (set_Status STATUS_PAUSE go101o))) = STATUS_PAUSE /\
  Status (snd (Play (set_Status STATUS_STOP go101o))) = STATUS_PLAY.
Proof.
  split.
  - apply (Play_keeps_pause (set_Status STATUS_PAUSE go101o)). reflexivity.
  - apply (Play_keeps_pause (set_Status STATUS_STOP go101o)). discriminate.
Defined.

(** X7.  A key press changes nothing but the status, calls the backend
    exactly once, to mute or to unmute, never to stop or to start, and
    leaves the status playing or paused.  From playing or paused a second
    key press brings the object back to exactly what it was; from stopped
    two key presses end paused. *)
Theorem hotkey_toggles (g : go101) :
  (exists s, snd (hotkey g) = set_Status s g /\
             (s = STATUS_PLAY \/ s = STATUS_PAUSE)) /\
  (fst (hotkey g) = [MuteProcess] \/ fst (hotkey g) = [UnmuteProcess]) /\
  (Status g = STATUS_PLAY \/ Status g = STATUS_PAUSE ->
   snd (hotkey (snd (hotkey g))) = g) /\
  (Status g = STATUS_STOP ->
   Status (snd (hotkey (snd (hotkey g)))) = STATUS_PAUSE /\
   (fst (hotkey g) ++ fst (hotkey (snd (hotkey g))))%list =
   [UnmuteProcess; MuteProcess]).
Proof.
  unfold hotkey, hotkeyPath.
  split; [|split; [|split]].
  - destruct ((Status g =? STATUS_STOP) || (Status g =? STATUS_PAUSE)).
    + exists STATUS_PLAY. split; [reflexivity|left; reflexivity].
    + exists STATUS_PAUSE. split; [reflexivity|right; reflexivity].
  - destruct ((Status g =? STATUS_STOP) || (Status g =? STATUS_PAUSE));
      [right|left]; reflexivity.
  - intros [H|H]; rewrite H; destruct g as [cg cc ct tu st nf];
      simpl in H; subst st; reflexivity.
  - intros H. rewrite H. split; reflexivity.
Qed.

Lemma hotkey_toggles_witness :
  snd (hotkey (snd (hotkey (set_Status STATUS_PLAY go101o)))) =
  set_Status STATUS_PLAY go101o /\
  Status (snd (hotkey (snd (hotkey (set_Status STATUS_STOP go101o))))) =
  STATUS_PAUSE.
Proof.
  split.
  - apply (hotkey_toggles (set_Status STATUS_PLAY go101o)).
    left. reflexivity.
  - apply (hotkey_toggles (set_Status STATUS_STOP go101o)). reflexivity.
Defined.

(** ** The playing loop *)

Lemma restarts_app (ev ev' : list Event) :
  restarts (ev ++ ev') = (restarts ev + restarts ev')%nat.
Proof. unfold restarts. rewrite filter_app, length_app. reflexivity. Qed.

Lemma stops_app (ev ev' : list Event) :
  stops (ev ++ ev') = (stops ev + stops ev')%nat.
Proof. unfold stops. rewrite filter_app, length_app. reflexivity. Qed.

Lemma notifications_app (ev ev' : list Event) :
  notifications (ev ++ ev') = (notifications ev + notifications ev')%nat.
Proof. unfold notifications. rewrite filter_app, length_app. reflexivity. Qed.

Lemma loopBody_cases (net : GetResult) (g : go101) :
  exists g1,
    FetchChannelInfo net g = Returned tt g1 /\
    ((TrackUid g1 = Track_TrackUid (CurrentTrack g1) /\
      loopBody net g = ([], Returned tt g1)) \/
     (TrackUid g1 <> Track_TrackUid (CurrentTrack g1) /\
      loopBody net g =
      ([NowPlaying (Artist (CurrentTrack g1)) (Title (CurrentTrack g1))
                   (Album (CurrentTrack g1))
                   (NextFetch g1 / 60) (NextFetch g1 mod 60);
        StopProcess; StopProcess; PlayProcess (PlayURL (CurrentTrack g1))],
       Returned tt
         (set_Status STATUS_PLAY
            (set_TrackUid (Track_TrackUid (CurrentTrack g1))
               (set_Status STATUS_STOP g1)))))).
Proof.
  destruct (FetchChannelInfo_returns net g) as [g1 H].
  exists g1. split; [exact H|]. unfold loopBody. rewrite H.
  destruct (TrackUid g1 =? Track_TrackUid (CurrentTrack g1)) eqn:E.
  - left. apply Z.eqb_eq in E. split; [exact E|reflexivity].
  - right. apply Z.eqb_neq in E. split; [exact E|reflexivity].
Qed.

(** X8.  One turn of the playing loop never panics and, from whatever
    state it starts, ends with the retained track being the one playback was
    last started for. *)
Theorem loopBody_establishes_synced (net : GetResult) (g : go101) :
  exists g', snd (loopBody net g) = Returned tt g' /\ synced g'.
Proof.
  destruct (loopBody_cases net g) as (g1 & _ & [[Hs ->]|[Hs ->]]).
  - exists g1. split; [reflexivity|exact Hs].
  - eexists. split; [reflexivity|]. reflexivity.
Qed.

(** X9.  When a turn of the loop restarts playback, the status afterwards
    is playing and the backend is not muted, also when the player was paused
    before the turn: [Stop] has overwritten the status by the time [Play]
    looks at it.  A turn that does not restart leaves the status alone. *)
Theorem restart_resumes_paused_player (net : GetResult) (g : go101) :
  (fst (loopBody net g) <> [] ->
   Status (stateOf (snd (loopBody net g))) = STATUS_PLAY /\
   List.length (filter isMute (fst (loopBody net g))) = O /\
   restarts (fst (loopBody net g)) = 1%nat) /\
  (fst (loopBody net g) = [] ->
   Status (stateOf (snd (loopBody net g))) = Status g).
Proof.
  destruct (loopBody_cases net g) as (g1 & Hf & [[Hs ->]|[Hs ->]]).
  - split; [intros C; contradiction C; reflexivity|].
    intros _. cbn [snd stateOf].
    destruct (FetchChannelInfo_shape net g) as (track & next & H & _).
    rewrite H in Hf. injection Hf as <-. reflexivity.
  - split; [|intros C; discriminate C].
    intros _. repeat split.
Qed.

Lemma restart_resumes_paused_player_witness :
  Status (stateOf (snd (loopBody (answer 200 (sampleTrackInfo 7 "/a.mp3" 1000 900))
                                 (set_Status STATUS_PAUSE go101o)))) =
  STATUS_PLAY.
Proof.
  apply (restart_resumes_paused_player
           (answer 200 (sampleTrackInfo 7 "/a.mp3" 1000 900))
           (set_Status STATUS_PAUSE go101o)).
  vm_compute. discriminate.
Defined.

Lemma loop_counts (nets : list GetResult) :
  forall g : go101,
    synced g ->
    exists g',
      snd (loop nets g) = Returned tt g' /\
      synced g' /\
      restarts (fst (loop nets g)) =
      changes (TrackUid g) (map freshTrackUid nets) /\
      notifications (fst (loop nets g)) =
      changes (TrackUid g) (map freshTrackUid nets) /\
      stops (fst (loop nets g)) =
      (2 * changes (TrackUid g) (map freshTrackUid nets))%nat.
Proof.
  induction nets as [|net nets IH]; intros g Hs.
  - exists g. repeat split. exact Hs.
  - cbn [loop map changes].
    destruct (freshTrackUid net) as [t|] eqn:E.
    + pose proof E as E'. apply freshTrackUid_Some in E'.
      destruct E' as (code & trackInfo & a & rest & -> & Ha & <-).
      rewrite (loopBody_success code trackInfo a rest g Ha).
      rewrite (Z.eqb_sym (Audio_TrackUid a) (TrackUid g)).
      destruct (TrackUid g =? Audio_TrackUid a) eqn:Eq.
      * apply Z.eqb_eq in Eq.
        match goal with
        | |- context [loop nets ?g1] =>
            destruct (IH g1) as (g' & Hl & Hs' & Hr & Hn & Hst);
            [exact Eq|]; destruct (loop nets g1) as [ev' o] eqn:El
        end.
        cbn [fst snd] in *. exists g'.
        cbn [TrackUid set_NextFetch set_CurrentTrack] in Hr, Hn, Hst.
        change ([] ++ ev')%list with ev'.
        rewrite Hr, Hn, Hst. repeat split; assumption.
      * match goal with
        | |- context [loop nets ?g1] =>
            destruct (IH g1) as (g' & Hl & Hs' & Hr & Hn & Hst);
            [reflexivity|]; destruct (loop nets g1) as [ev' o] eqn:El
        end.
        cbn [fst snd] in *. exists g'.
        cbn [TrackUid set_Status set_TrackUid] in Hr, Hn, Hst.
        rewrite restarts_app, notifications_app, stops_app, Hr, Hn, Hst.
        split; [exact Hl|]. split; [exact Hs'|].
        split; [reflexivity|]. split; [reflexivity|].
        cbn [stops filter isStop List.length]. lia.
    + apply freshTrackUid_None in E.
      rewrite (loopBody_failure net g E Hs).
      destruct (IH (set_NextFetch 5 g) Hs) as (g' & Hl & Hs' & Hr & Hn & Hst).
      destruct (loop nets (set_NextFetch 5 g)) as [ev' o] eqn:El.
      cbn [fst snd] in *. exists g'.
      cbn [TrackUid set_NextFetch] in Hr, Hn, Hst.
      change ([] ++ ev')%list with ev'.
      repeat split; assumption.
Qed.

(** X10.  Over any run of turns that starts with the retained track being
    the one last started (as at program start), the loop never panics, and
    the number of playback starts equals the number of times the fetched
    identifier changes along the run, failed fetches being skipped; there
    is one now-playing line per start and two backend stops per start. *)
Theorem loop_restarts_count_changes (nets : list GetResult) (g : go101) :
  synced g ->
  (exists g', snd (loop nets g) = Returned tt g' /\ synced g') /\
  restarts (fst (loop nets g)) =
  changes (TrackUid g) (map freshTrackUid nets) /\
  notifications (fst (loop nets g)) = restarts (fst (loop nets g)) /\
  stops (fst (loop nets g)) = (2 * restarts (fst (loop nets g)))%nat.
Proof.
  intros Hs.
  destruct (loop_counts nets g Hs) as (g' & Hl & Hs' & Hr & Hn & Hst).
  split; [exists g'; split; assumption|].
  rewrite Hr, Hn, Hst. repeat split.
Qed.

Lemma loop_restarts_count_changes_witness :
  restarts (fst (loop (GetError :: answersAAB) go101o)) = 2%nat.
Proof.
  destruct (loop_restarts_count_changes (GetError :: answersAAB) go101o)
    as (_ & H & _).
  - reflexivity.
  - rewrite H. reflexivity.
Defined.

(** ** [Sleep], further *)

Lemma Sleep_fuel_mono (fuel fuel' : nat) (statusAt : nat -> Z) (s : Z)
    (n : nat) :
  Sleep fuel statusAt s = Some n -> (fuel <= fuel')%nat ->
  Sleep fuel' statusAt s = Some n.
Proof.
  intros H Hle. apply Sleep_spec in H. destruct H as (Hb & Hs & Hmin).
  apply Sleep_spec. split; [lia|]. split; assumption.
Qed.

Lemma sleepLoop_reaches (statusAt : nat -> Z) (s : Z) (fuel : nat) :
  forall k m : nat,
    (k < m <= k + fuel)%nat -> s <= counterAfter statusAt m ->
    exists n, sleepLoop fuel statusAt s (counterAfter statusAt k) k = Some n.
Proof.
  induction fuel as [|fuel IH]; intros k m Hm Hs; [lia|].
  cbn [sleepLoop].
  change (sleepTick (statusAt (S k)) (counterAfter statusAt k))
    with (counterAfter statusAt (S k)).
  destruct (counterAfter statusAt (S k) >=? s) eqn:E.
  - exists (S k). reflexivity.
  - apply (IH (S k) m); [|exact Hs].
    destruct (Nat.eq_dec m (S k)) as [->|Hne]; [|lia].
    rewrite Z.geb_leb in E. apply Z.leb_gt in E. lia.
Qed.

Lemma playingTicks_below (statusAt : nat -> Z) (s : Z) (n : nat) :
  s < U64.modulus ->
  (forall m : nat, (m <= n)%nat -> counterAfter statusAt m < s) ->
  counterAfter statusAt n = Z.of_nat (playingTicks statusAt n).
Proof.
  intros Hs. induction n as [|n IH]; intros Hall; [reflexivity|].
  assert (Hn : counterAfter statusAt n = Z.of_nat (playingTicks statusAt n))
    by (apply IH; intros m Hm; apply Hall; lia).
  pose proof (Hall n) as Hlt. specialize (Hlt (Nat.le_succ_diag_r n)).
  apply counterAfter_playingTicks. cbn [playingTicks].
  destruct (statusAt (S n) =? STATUS_PLAY); lia.
Qed.

(** X11.  [Sleep] comes back once the status has read playing often
    enough: when the counter reaches the target within [N] ticks, every run
    with at least [N] turns of fuel returns, always after the same number of
    ticks, which is at most [N]. *)
Theorem Sleep_returns_when_played_enough (statusAt : nat -> Z) (s : Z)
    (N : nat) :
  (1 <= N)%nat -> s <= counterAfter statusAt N ->
  exists n,
    (1 <= n <= N)%nat /\
    forall fuel, (N <= fuel)%nat -> Sleep fuel statusAt s = Some n.
Proof.
  intros HN Hs.
  destruct (sleepLoop_reaches statusAt s N O N) as [n Hn]; [lia|exact Hs|].
  change (counterAfter statusAt 0) with 0 in Hn. fold (Sleep N statusAt s) in Hn.
  exists n. split.
  - apply Sleep_spec in Hn. lia.
  - intros fuel Hf. apply (Sleep_fuel_mono N fuel); assumption.
Qed.

Lemma Sleep_returns_when_played_enough_witness :
  exists n,
    (1 <= n <= 14)%nat /\
    forall fuel, (14 <= fuel)%nat -> Sleep fuel pausedAt3to6 10 = Some n.
Proof.
  apply (Sleep_returns_when_played_enough pausedAt3to6 10 14).
  - lia.
  - vm_compute. discriminate.
Defined.

(** X12.  While the status never reads playing, [Sleep] with a target of at
    least 1 does not return, however many turns it is given: a paused or
    stopped player does not fetch. *)
Theorem Sleep_blocks_while_not_playing (fuel : nat) (statusAt : nat -> Z)
    (s : Z) :
  (forall k : nat, statusAt k <> STATUS_PLAY) -> 1 <= s ->
  Sleep fuel statusAt s = None.
Proof.
  intros Hnp Hs.
  assert (Hz : forall n, counterAfter statusAt n = 0).
  { induction n as [|n IH]; [reflexivity|]. cbn [counterAfter].
    rewrite sleepTick_not_playing by apply Hnp. exact IH. }
  destruct (Sleep fuel statusAt s) as [n|] eqn:E; [|reflexivity].
  apply Sleep_spec in E. destruct E as (_ & Hr & _).
  rewrite Hz in Hr. lia.
Qed.

Lemma Sleep_blocks_while_not_playing_witness :
  Sleep 1000 pausedAlways 2 = None.
Proof.
  apply (Sleep_blocks_while_not_playing 1000 pausedAlways 2).
  - intros k. unfold pausedAlways. discriminate.
  - lia.
Defined.

(** X13.  When [Sleep] returns for a target between 1 and 2^64 - 1, the
    status read playing at exactly that many ticks, the last tick among
    them; the ticks consumed are the target plus the ticks at which the
    status did not read playing, and so never fewer than the target. *)
Theorem Sleep_counts_playing_ticks (fuel : nat) (statusAt : nat -> Z)
    (s : Z) (n : nat) :
  1 <= s -> s < U64.modulus ->
  Sleep fuel statusAt s = Some n ->
  Z.of_nat (playingTicks statusAt n) = s /\
  statusAt n = STATUS_PLAY /\
  s <= Z.of_nat n.
Proof.
  intros H1 Hlt H. apply Sleep_spec in H.
  destruct H as (Hb & Hr & Hmin).
  destruct n as [|n]; [lia|].
  assert (Hbelow : forall m : nat, (m <= n)%nat -> counterAfter statusAt m < s).
  { intros m Hm. destruct m as [|m]; [simpl; lia|]. apply Hmin. lia. }
  pose proof (playingTicks_below statusAt s n Hlt Hbelow) as Hn.
  pose proof (Hbelow n (Nat.le_refl n)) as Hc.
  cbn [counterAfter] in Hr. unfold sleepTick in Hr.
  assert (Hle : forall k, (playingTicks statusAt k <= k)%nat).
  { induction k as [|k IHk]; [simpl; lia|]. cbn [playingTicks].
    destruct (statusAt (S k) =? STATUS_PLAY); lia. }
  pose proof (Hle (S n)) as HleS.
  cbn [playingTicks] in *.
  destruct (statusAt (S n) =? STATUS_PLAY) eqn:E; [|lia].
  apply Z.eqb_eq in E.
  rewrite U64_add_no_carry in Hr by lia.
  split; [lia|]. split; [exact E|lia].
Qed.

Lemma Sleep_counts_playing_ticks_witness :
  Z.of_nat (playingTicks pausedAt3to6 14) = 10 /\
  pausedAt3to6 14 = STATUS_PLAY /\
  10 <= Z.of_nat 14.
Proof.
  apply (Sleep_counts_playing_ticks 20 pausedAt3to6 10 14).
  - lia.
  - rewrite U64_modulus_eq. lia.
  - vm_compute. reflexivity.
Defined.

(** X14.  While the status reads playing at every tick, [Sleep] with a
    target between 1 and 2^64 - 1 returns after exactly that many ticks; in
    particular the wait after a fetch is the period the fetch computed. *)
Theorem Sleep_while_playing (fuel : nat) (statusAt : nat -> Z) (s : nat) :
  (forall k : nat, statusAt k = STATUS_PLAY) ->
  (1 <= s)%nat -> Z.of_nat s < U64.modulus -> (s <= fuel)%nat ->
  Sleep fuel statusAt (Z.of_nat s) = Some s.
Proof.
  intros Hp H1 Hlt Hf.
  assert (Hpt : forall n, playingTicks statusAt n = n).
  { induction n as [|n IH]; [reflexivity|]. cbn [playingTicks].
    rewrite Hp, Z.eqb_refl, IH. reflexivity. }
  assert (Hc : forall n, (n <= s)%nat -> counterAfter statusAt n = Z.of_nat n).
  { intros n Hn. rewrite counterAfter_playingTicks; rewrite Hpt; lia. }
  apply Sleep_spec. split; [lia|]. split.
  - rewrite Hc by lia. lia.
  - intros m Hm. rewrite Hc by lia. lia.
Qed.

Lemma Sleep_while_playing_witness :
  Sleep 100 playingAlways (Z.of_nat 97) = Some 97%nat.
Proof.
  apply (Sleep_while_playing 100 playingAlways 97).
  - intros k. reflexivity.
  - lia.
  - rewrite U64_modulus_eq. lia.
  - lia.
Defined.

(** ** The URL fix-ups, further *)

Lemma drop_within (j : nat) (a b : string) :
  (j <= String.length a)%nat ->
  strings.drop j (a ++ b) = strings.drop j a ++ b.
Proof.
  revert a. induction j as [|j IH]; intros a Hj; [reflexivity|].
  destruct a as [|x a]; [simpl in Hj; lia|].
  simpl. apply IH. simpl in Hj. lia.
Qed.

Lemma drop_length (j : nat) (a : string) :
  String.length (strings.drop j a) = (String.length a - j)%nat.
Proof.
  revert a. induction j as [|j IH]; intros a; [simpl; lia|].
  destruct a as [|x a]; [reflexivity|]. simpl. apply IH.
Qed.

Lemma HasPrefix_local (lit a rest : string) :
  (String.length lit <= String.length a)%nat ->
  strings.HasPrefix (a ++ rest) lit = strings.HasPrefix a lit.
Proof.
  revert a. induction lit as [|c lit IH]; intros a Hl; [reflexivity|].
  destruct a as [|x a]; [simpl in Hl; lia|].
  simpl. rewrite IH; [reflexivity|]. simpl in Hl. lia.
Qed.

Lemma noneBefore_extend (lit p rest : string) :
  noneBefore lit (String.length p) (p ++ lit) ->
  noneBefore lit (String.length p) (p ++ lit ++ rest).
Proof.
  intros H j Hj. specialize (H j Hj).
  rewrite <- append_assoc.
  rewrite drop_within by (rewrite length_append; lia).
  rewrite HasPrefix_local; [exact H|].
  rewrite drop_length, length_append. lia.
Qed.

(** X15.  The prefixing step always yields a URL in which the scheme
    expression finds a match, and applying it again changes nothing. *)
Theorem prefixing_idempotent (filename : string) :
  regexp.FindScheme (prefixURL filename) <> None /\
  prefixURL (prefixURL filename) = prefixURL filename.
Proof.
  assert (H : regexp.FindScheme (prefixURL filename) <> None)
    by apply prefixURL_has_scheme.
  split; [exact H|].
  destruct (prefixURL_cases (prefixURL filename)) as [[Hn _]|[_ Hp]];
    [contradiction|exact Hp].
Qed.

(** X16.  The collapsing step returns the URL as it is or with exactly 31
    bytes less, and it never removes the fragment altogether: the result
    holds no match exactly when the URL held none. *)
Theorem collapse_keeps_a_fragment (url : string) :
  (collapseURL url = url \/
   (String.length (collapseURL url) + 31)%nat = String.length url) /\
  (regexp.FindAllFiles (collapseURL url) = O <-> regexp.FindAllFiles url = O).
Proof.
  destruct (Nat.eq_dec (regexp.FindAllFiles url) 2) as [E|E].
  - split; [right; apply collapseURL_length; exact E|].
    destruct (collapseURL_two url E) as (before & after & Hu & _ & Hc & Ha).
    rewrite Hc, E. split; [|discriminate].
    intros H. unfold regexp.FindAllFiles in Ha, H.
    rewrite (countMatches_Index _ filesFragment_nonempty) in Ha.
    destruct (strings.Index after regexp.filesFragment) as [i|] eqn:Ei;
      [|discriminate Ha].
    destruct (Index_Some _ filesFragment_nonempty after i Ei)
      as (mid & tail & -> & _ & _).
    rewrite <- append_assoc in H.
    pose proof (countMatches_present _ filesFragment_nonempty
                  (before ++ mid) tail) as Hp.
    rewrite H in Hp. lia.
  - rewrite (collapseURL_unchanged url E). split; [left; reflexivity|].
    split; auto.
Qed.

(** X17.  The work-around does what its comment says for the doubled URL:
    when the fragment stands twice in a row, no occurrence starts in the part
    before it and none lies in the part after it, one of the two is removed
    and the result holds the fragment once.  When that URL is the filename
    of an answer and its first part matches the scheme expression, this is
    the URL stored for playback, and normalising it again changes
    nothing. *)
Theorem collapse_repairs_doubled_URL (p rest : string) :
  noneBefore regexp.filesFragment (String.length p) (p ++ regexp.filesFragment) ->
  regexp.FindAllFiles rest = O ->
  let doubledURL := p ++ regexp.filesFragment ++ regexp.filesFragment ++ rest in
  let repaired := p ++ regexp.filesFragment ++ rest in
  regexp.FindAllFiles doubledURL = 2%nat /\
  collapseURL doubledURL = repaired /\
  regexp.FindAllFiles repaired = 1%nat /\
  (regexp.FindScheme p <> None ->
   normalizeURL doubledURL = repaired /\
   normalizeURL repaired = repaired).
Proof.
  intros Hn Hr doubledURL repaired.
  pose proof (noneBefore_extend _ p (regexp.filesFragment ++ rest) Hn) as Hn2.
  pose proof (noneBefore_extend _ p rest Hn) as Hn1.
  assert (Hone : regexp.FindAllFiles repaired = 1%nat).
  { unfold repaired, regexp.FindAllFiles in *.
    rewrite (countMatches_miss _ p _ Hn1).
    rewrite (countMatches_here _ filesFragment_nonempty). rewrite Hr.
    reflexivity. }
  assert (Htwo : regexp.FindAllFiles doubledURL = 2%nat).
  { unfold doubledURL, regexp.FindAllFiles in *.
    rewrite (countMatches_miss _ p _ Hn2).
    rewrite !(countMatches_here _ filesFragment_nonempty). rewrite Hr.
    reflexivity. }
  assert (Hcol : collapseURL doubledURL = repaired).
  { unfold collapseURL. rewrite Htwo. cbn [Nat.eqb].
    change "/vardata/modules/musicdb/files/" with regexp.filesFragment.
    unfold doubledURL.
    rewrite (Replace1_first _ filesFragment_nonempty p _ "" Hn2).
    reflexivity. }
  split; [exact Htwo|]. split; [exact Hcol|]. split; [exact Hone|].
  intros Hp. split.
  - unfold normalizeURL.
    destruct (prefixURL_cases doubledURL) as [[Hnone _]|[_ ->]];
      [|exact Hcol].
    contradiction (FindScheme_append p
                     (regexp.filesFragment ++ regexp.filesFragment ++ rest) Hp).
  - apply normalizeURL_fixed_iff. split.
    + apply FindScheme_append. exact Hp.
    + rewrite Hone. discriminate.
Qed.

Lemma collapse_repairs_doubled_URL_witness :
  normalizeURL
    ("http://cdn1.101.ru" ++ regexp.filesFragment ++ regexp.filesFragment
     ++ "a.mp3") =
  "http://cdn1.101.ru" ++ regexp.filesFragment ++ "a.mp3".
Proof.
  destruct (collapse_repairs_doubled_URL "http://cdn1.101.ru" "a.mp3")
    as (_ & _ & _ & H).
  - intros j Hj.
    do 18 (destruct j as [|j]; [reflexivity|]).
    simpl in Hj. lia.
  - reflexivity.
  - apply H. discriminate.
Defined.

(** ** [FormatTime] and the now-playing line *)

(** X18.  The minutes and seconds [FormatTime] prints give the number of
    seconds back, with the seconds below 60; in every now-playing line of
    the loop they are those of the period just computed, so the minutes are
    at most 29. *)
Theorem now_playing_time (net : GetResult) (g : go101)
    (artist title album : string) (min sec : Z) :
  (forall s, 0 <= s ->
     60 * fst (FormatTime s) + snd (FormatTime s) = s /\
     0 <= snd (FormatTime s) < 60 /\ 0 <= fst (FormatTime s)) /\
  (In (NowPlaying artist title album min sec) (fst (loopBody net g)) ->
   60 * min + sec = NextFetch (stateOf (snd (loopBody net g))) /\
   0 <= min <= 29 /\ 0 <= sec < 60).
Proof.
  split.
  - intros s Hs. unfold FormatTime. cbn [fst snd].
    pose proof (Z.div_mod s 60) as Hd.
    pose proof (Z.mod_pos_bound s 60) as Hm.
    assert (0 <= s / 60) by (apply Z.div_pos; lia).
    lia.
  - intros Hin.
    destruct (loopBody_cases net g) as (g1 & Hf & [[_ Hl]|[_ Hl]]);
      rewrite Hl in Hin |- *; cbn [fst snd stateOf] in *.
    + contradiction.
    + destruct Hin as [Hin|[Hin|[Hin|[Hin|[]]]]]; try discriminate Hin.
      injection Hin as _ _ _ <- <-.
      cbn [NextFetch set_Status set_TrackUid].
      pose proof (FetchChannelInfo_NextFetch_range net g) as Hb.
      rewrite Hf in Hb. cbn [stateOf] in Hb.
      pose proof (Z.div_mod (NextFetch g1) 60) as Hd.
      pose proof (Z.mod_pos_bound (NextFetch g1) 60) as Hm.
      assert (0 <= NextFetch g1 / 60) by (apply Z.div_pos; lia).
      assert (NextFetch g1 / 60 < 30) by (apply Z.div_lt_upper_bound; lia).
      lia.
Qed.

Lemma now_playing_time_witness :
  60 * 1 + 37 =
  NextFetch (stateOf (snd (loopBody (answer 200 (sampleTrackInfo 7 "/a.mp3" 1000 900))
                                    go101o))) /\
  0 <= 1 <= 29 /\ 0 <= 37 < 60.
Proof.
  apply (now_playing_time (answer 200 (sampleTrackInfo 7 "/a.mp3" 1000 900))
           go101o "Artist" "Title" "Album" 1 37).
  left. reflexivity.
Defined.

(** ** The channel given with [-c] *)

Lemma rangeChannels_spec (cids : list Z) (gid channel : Z) (g : go101) :
  rangeChannels cids gid channel g =
  if existsb (fun cid => cid =? channel) cids
  then set_CurrentGroup gid g else g.
Proof.
  revert g. induction cids as [|cid cids IH]; intros g; [reflexivity|].
  cbn [rangeChannels existsb]. rewrite IH.
  destruct (cid =? channel); cbn [orb]; [|reflexivity].
  destruct (existsb (fun cid0 => cid0 =? channel) cids); reflexivity.
Qed.

Lemma existsb_eqb_In (cids : list Z) (channel : Z) :
  existsb (fun cid => cid =? channel) cids = true <-> In channel cids.
Proof.
  rewrite existsb_exists. split.
  - intros (x & Hin & Hx). apply Z.eqb_eq in Hx. subst x. exact Hin.
  - intros Hin. exists channel. split; [exact Hin|apply Z.eqb_refl].
Qed.

Lemma rangeGroups_result (groups : list (Z * list Z)) (channel : Z) :
  forall g : go101,
    ((forall gid cids, In (gid, cids) groups -> ~ In channel cids) /\
     rangeGroups groups channel g = g) \/
    (exists gid cids,
       In (gid, cids) groups /\ In channel cids /\
       rangeGroups groups channel g = set_CurrentGroup gid g).
Proof.
  induction groups as [|[gid cids] groups IH]; intros g.
  - left. split; [intros gid cids []|reflexivity].
  - cbn [rangeGroups]. rewrite rangeChannels_spec.
    destruct (existsb (fun cid => cid =? channel) cids) eqn:E.
    + apply existsb_eqb_In in E.
      destruct (IH (set_CurrentGroup gid g)) as [[Hno Hr]|(gid' & cids' & Hin & Hc & Hr)].
      * right. exists gid, cids. split; [left; reflexivity|].
        split; [exact E|exact Hr].
      * right. exists gid', cids'. split; [right; exact Hin|].
        split; [exact Hc|]. rewrite Hr. reflexivity.
    + assert (Hn : ~ In channel cids).
      { intros Hin. apply existsb_eqb_In in Hin. rewrite Hin in E.
        discriminate E. }
      destruct (IH g) as [[Hno Hr]|(gid' & cids' & Hin & Hc & Hr)].
      * left. split; [|exact Hr].
        intros gid0 cids0 [Heq|Hin].
        -- injection Heq as <- <-. exact Hn.
        -- apply (Hno gid0 cids0 Hin).
      * right. exists gid', cids'. split; [right; exact Hin|].
        split; [exact Hc|exact Hr].
Qed.

(** X19.  The choice of the channel in [main].  With a flag [-c] other
    than 0, the current channel becomes the given number whether or not any
    group lists it, and nothing but the current group and channel is
    written; when no group lists the channel the current group stays as it
    was; when the groups that list it all have the same key, that key
    becomes the current group, in whatever order the groups are visited.
    With the flag at 0 the groups are not searched: group and channel are
    the two numbers read from standard input. *)
Theorem chooseChannel_group (groups : list (Z * list Z)) (channelPtr : Z)
    (typedGroup typedChannel : Z) (g : go101) :
  let g' := chooseChannel groups channelPtr typedGroup typedChannel g in
  CurrentTrack g' = CurrentTrack g /\ TrackUid g' = TrackUid g /\
  Status g' = Status g /\ NextFetch g' = NextFetch g /\
  (channelPtr = 0 ->
   CurrentGroup g' = typedGroup /\ CurrentChannel g' = typedChannel) /\
  (channelPtr <> 0 ->
   let channel := U64.wrap channelPtr in
   CurrentChannel g' = channel /\
   ((forall gid cids, In (gid, cids) groups -> ~ In channel cids) ->
    CurrentGroup g' = CurrentGroup g) /\
   (forall G,
      (exists cids, In (G, cids) groups /\ In channel cids) ->
      (forall gid cids, In (gid, cids) groups -> In channel cids -> gid = G) ->
      CurrentGroup g' = G)).
Proof.
  intros g'. unfold g', chooseChannel.
  destruct (channelPtr =? 0) eqn:E0.
  - apply Z.eqb_eq in E0.
    split; [reflexivity|]. split; [reflexivity|]. split; [reflexivity|].
    split; [reflexivity|]. split.
    + intros _. split; reflexivity.
    + intros Hne. contradiction.
  - apply Z.eqb_neq in E0. unfold chooseByFlag.
    destruct (rangeGroups_result groups (U64.wrap channelPtr) g)
      as [[Hno ->]|(gid & cids & Hin & Hc & ->)].
    + split; [reflexivity|]. split; [reflexivity|]. split; [reflexivity|].
      split; [reflexivity|]. split; [intros C; contradiction|].
      intros _. cbv zeta. split; [reflexivity|]. split; [intros _; reflexivity|].
      intros G (cids & Hin & Hc) _. contradiction (Hno G cids Hin).
    + split; [reflexivity|]. split; [reflexivity|]. split; [reflexivity|].
      split; [reflexivity|]. split; [intros C; contradiction|].
      intros _. cbv zeta. split; [reflexivity|]. split.
      * intros Hno. contradiction (Hno gid cids Hin).
      * intros G _ Hall.
        cbn [CurrentGroup set_CurrentChannel set_CurrentGroup].
        apply (Hall gid cids Hin Hc).
Qed.

Lemma chooseChannel_group_witness :
  CurrentGroup (chooseChannel sampleGroups 7 0 0 busyObject) = 2 /\
  CurrentGroup (chooseChannel sampleGroups 8 0 0 busyObject) =
  CurrentGroup busyObject /\
  (CurrentGroup (chooseChannel sampleGroups 0 2 7 busyObject) = 2 /\
   CurrentChannel (chooseChannel sampleGroups 0 2 7 busyObject) = 7).
Proof.
  destruct (chooseChannel_group sampleGroups 7 0 0 busyObject)
    as (_ & _ & _ & _ & _ & H7).
  destruct (chooseChannel_group sampleGroups 8 0 0 busyObject)
    as (_ & _ & _ & _ & _ & H8).
  destruct (chooseChannel_group sampleGroups 0 2 7 busyObject)
    as (_ & _ & _ & _ & H0 & _).
  split; [|split].
  - destruct H7 as (_ & _ & H7); [discriminate|]. apply H7.
    + exists [7; 9]. split; [right; left; reflexivity|left; reflexivity].
    + intros gid cids [H|[H|[]]] Hc; injection H as <- <-.
      * vm_compute in Hc. destruct Hc as [C|[C|[]]]; discriminate C.
      * reflexivity.
  - destruct H8 as (_ & H8 & _); [discriminate|]. apply H8.
    intros gid cids [H|[H|[]]] Hc; injection H as <- <-;
      vm_compute in Hc; repeat (destruct Hc as [Hc|Hc]; [discriminate Hc|]);
      exact Hc.
  - apply H0. reflexivity.
Defined.
